(** * edb-debugger: signal catalog, retrying system calls, backward
      instruction search and the architecture processors (x86, ARM)

    A shallow embedding of

    - [plugins/DebuggerCore/unix/DebuggerCoreUNIX.cpp]
      (the [Exceptions] table, [exceptionName], [exceptionValue] and the
      [native::read]/[write]/[select]/[waitpid] wrappers),
    - [src/widgets/QDisassemblyView.cpp] ([length_disasm_back]),
    - [src/arch/x86-generic/ArchProcessor.cpp]
      ([get_effective_address], [ArchProcessor::is_filling]),
    - [src/arch/arm-generic/ArchProcessor.cpp]
      ([capstoneRegToGPRIndex], [adjustR15Value], [shift],
      [ArchProcessor::get_effective_address], [is_jcc_taken]),

    followed by the properties of the specification that concern them. *)

From Stdlib Require Import ZArith Lia Bool Strings.Byte Strings.Ascii.
From stdpp Require Import base option list strings gmap.

Local Open Scope Z_scope.

(** ** Machine integers *)

(** [edb::address_t] is a 64-bit unsigned value, [uint32_t] a 32-bit one;
    their arithmetic wraps around. *)
Definition wrap64 (z : Z) : Z := z mod 2 ^ 64.
Definition wrap32 (z : Z) : Z := z mod 2 ^ 32.

(** Bytes ([quint8]) are compared with [==]. *)
#[global] Instance byte_eq_decision : EqDecision byte := Byte.byte_eq_dec.

(** ** DebuggerCoreUNIX.cpp *)

Module DebuggerCoreUNIX.

(** [struct Exception { qlonglong value; const char *const name; }] *)
Record Exception := { value : Z; name : string }.

(** The table is assembled under [#ifdef SIGxxx]: which macros the host
    defines, and to what, comes from the system headers.  A platform is
    the finite map from the defined macros to their values,
    [gmap string Z]. *)

(** One [#ifdef NAME { NAME, "NAME" }, #endif] block. *)
Definition ifdef (p : gmap string Z) (macro : string) : list Exception :=
  match p !! macro with
  | Some v => [ {| value := v; name := macro |} ]
  | None => []
  end.

(** The macros in the order the table lists them. *)
Definition signal_macros : list string :=
  [ "SIGABRT"; "SIGALRM"; "SIGVTALRM"; "SIGPROF"; "SIGBUS"; "SIGCHLD";
    "SIGCONT"; "SIGFPE"; "SIGHUP"; "SIGILL"; "SIGINT"; "SIGKILL";
    "SIGPIPE"; "SIGQUIT"; "SIGSEGV"; "SIGSTOP"; "SIGTERM"; "SIGTSTP";
    "SIGTTIN"; "SIGTTOU"; "SIGUSR1"; "SIGUSR2"; "SIGPOLL"; "SIGSYS";
    "SIGTRAP"; "SIGURG"; "SIGXCPU"; "SIGXFSZ"; "SIGRTMIN"; "SIGRTMAX";
    "SIGIO"; "SIGSTKFLT"; "SIGWINCH" ]%string.

Definition Exceptions (p : gmap string Z) : list Exception :=
  flat_map (ifdef p) signal_macros.

(** [for(Exception e : Exceptions) if(value == e.value) return e.name;
    return QString();] *)
Fixpoint lookup_name (es : list Exception) (v : Z) : string :=
  match es with
  | [] => ""
  | e :: es' => if v =? value e then name e else lookup_name es' v
  end.

Definition exceptionName (p : gmap string Z) (v : Z) : string :=
  lookup_name (Exceptions p) v.

(** [for(Exception e : Exceptions) if(name == e.name) return e.value;
    return -1;] *)
Fixpoint lookup_value (es : list Exception) (n : string) : Z :=
  match es with
  | [] => -1
  | e :: es' => if String.eqb n (name e) then value e else lookup_value es' n
  end.

Definition exceptionValue (p : gmap string Z) (n : string) : Z :=
  lookup_value (Exceptions p) n.

(** The signal numbers of Linux on x86 (asm/signal.h; [SIGRTMIN] and
    [SIGRTMAX] as glibc reports them), used for the worked examples. *)
Definition linux_x86 : gmap string Z :=
  list_to_map
    [ ("SIGABRT", 6); ("SIGALRM", 14); ("SIGVTALRM", 26); ("SIGPROF", 27);
      ("SIGBUS", 7); ("SIGCHLD", 17); ("SIGCONT", 18); ("SIGFPE", 8);
      ("SIGHUP", 1); ("SIGILL", 4); ("SIGINT", 2); ("SIGKILL", 9);
      ("SIGPIPE", 13); ("SIGQUIT", 3); ("SIGSEGV", 11); ("SIGSTOP", 19);
      ("SIGTERM", 15); ("SIGTSTP", 20); ("SIGTTIN", 21); ("SIGTTOU", 22);
      ("SIGUSR1", 10); ("SIGUSR2", 12); ("SIGPOLL", 29); ("SIGSYS", 31);
      ("SIGTRAP", 5); ("SIGURG", 23); ("SIGXCPU", 24); ("SIGXFSZ", 25);
      ("SIGRTMIN", 34); ("SIGRTMAX", 64); ("SIGIO", 29);
      ("SIGSTKFLT", 16); ("SIGWINCH", 28) ]%string.

(** *** System calls that are reissued when a signal interrupts them *)

Definition EINTR : Z := 4.

(** The operating system as seen by the four wrappers: a world with the
    thread's [errno] in it, and the four calls, each returning its
    result and the world after it. *)
Record OS := {
  World : Type;
  errno : World -> Z;
  sys_read : Z -> Z -> Z -> World -> Z * World;
  sys_write : Z -> Z -> Z -> World -> Z * World;
  sys_select : Z -> Z -> Z -> Z -> Z -> World -> Z * World;
  sys_waitpid : Z -> Z -> Z -> World -> Z * World
}.

Section Wrappers.
Context (os : OS).

(** [do { ret = call(); } while(ret == -1 && errno == EINTR); return ret;]
    The loop has no bound of its own; [fuel] bounds the number of times
    the call is issued and [None] means the bound was reached. *)
Fixpoint do_while_eintr (fuel : nat) (call : World os -> Z * World os)
    (w : World os) : option (Z * World os) :=
  match fuel with
  | O => None
  | S fuel' =>
      let '(ret, w') := call w in
      if (ret =? -1) && (errno os w' =? EINTR)
      then do_while_eintr fuel' call w'
      else Some (ret, w')
  end.

Definition native_read (fuel : nat) (fd buf count : Z) :=
  do_while_eintr fuel (sys_read os fd buf count).

Definition native_write (fuel : nat) (fd buf count : Z) :=
  do_while_eintr fuel (sys_write os fd buf count).

Definition native_select (fuel : nat) (nfds readfds writefds exceptfds timeout : Z) :=
  do_while_eintr fuel (sys_select os nfds readfds writefds exceptfds timeout).

Definition native_waitpid (fuel : nat) (pid status options : Z) :=
  do_while_eintr fuel (sys_waitpid os pid status options).

(** The world after the call was issued [k] times in a row. *)
Fixpoint after_calls (call : World os -> Z * World os) (k : nat)
    (w : World os) : World os :=
  match k with
  | O => w
  | S k' => after_calls call k' (snd (call w))
  end.

(** The call issued in world [w] fails with [EINTR]. *)
Definition interrupted (call : World os -> Z * World os) (w : World os) : bool :=
  (fst (call w) =? -1) && (errno os (snd (call w)) =? EINTR).

(** What is expected of a wrapper around [call]: what it returns is
    not a failure with [EINTR] but the outcome of the first call that
    was not interrupted, all calls before it having been interrupted;
    and it does return once the call stops being interrupted. *)
Definition reissues_on_EINTR
    (wrapper : nat -> World os -> option (Z * World os))
    (call : World os -> Z * World os) : Prop :=
  (forall fuel w r w',
      wrapper fuel w = Some (r, w') ->
      ~ (r = -1 /\ errno os w' = EINTR)
      /\ exists k, (k < fuel)%nat
         /\ (forall j, (j < k)%nat ->
               interrupted call (after_calls call j w) = true)
         /\ call (after_calls call k w) = (r, w'))
  /\ (forall k w fuel,
      (forall j, (j < k)%nat ->
         interrupted call (after_calls call j w) = true) ->
      interrupted call (after_calls call k w) = false ->
      (k < fuel)%nat ->
      wrapper fuel w = Some (call (after_calls call k w))).

End Wrappers.

(** An operating system for the worked examples: the world is the list
    of outcomes the next calls will have (result, and the [errno] a
    failure sets) together with the current [errno]; every call takes
    the next outcome, and returns 0 once the list is used up. *)
Definition scripted_call (w : list (Z * Z) * Z) : Z * (list (Z * Z) * Z) :=
  match fst w with
  | [] => (0, w)
  | (ret, err) :: rest => (ret, (rest, if ret =? -1 then err else snd w))
  end.

Definition scripted_os : OS := {|
  World := list (Z * Z) * Z;
  errno := snd;
  sys_read := fun _ _ _ => scripted_call;
  sys_write := fun _ _ _ => scripted_call;
  sys_select := fun _ _ _ _ _ => scripted_call;
  sys_waitpid := fun _ _ _ => scripted_call
|}.

(** *** The catalog as a map *)

(** [exceptions()]: [for(Exception e : Exceptions) exceptions[e.value] =
    e.name;] on an empty [QMap]; a later entry with the same value
    replaces the earlier one. *)
Definition exceptions (p : gmap string Z) : gmap Z string :=
  foldl (fun m e => <[value e := name e]> m) ∅ (Exceptions p).

(** *** [select] with a timeout in milliseconds *)

(** [struct timeval] *)
Record timeval := { tv_sec : Z; tv_usec : Z }.

(** [tv.tv_sec = (msecs / 1000); tv.tv_usec = (msecs % 1000) * 1000;] for
    the [quint64 msecs]. *)
Definition timeval_of_msecs (msecs : Z) : timeval :=
  {| tv_sec := msecs / 1000; tv_usec := (msecs mod 1000) * 1000 |}.

(** [select_ex]: [local_tv] puts the local [tv] into the world and gives
    its address, which [native::select] passes on; with [msecs == 0] the
    timeout is the null pointer (wait forever). *)
Definition select_ex (os : OS) (fuel : nat)
    (local_tv : timeval -> World os -> Z * World os)
    (nfds readfds writefds exceptfds msecs : Z) (w : World os)
    : option (Z * World os) :=
  if negb (msecs =? 0) then
    let '(tv, w1) := local_tv (timeval_of_msecs msecs) w in
    native_select os fuel nfds readfds writefds exceptfds tv w1
  else native_select os fuel nfds readfds writefds exceptfds 0 w.

End DebuggerCoreUNIX.

(** ** QDisassemblyView.cpp: the backward boundary search *)

Module QDisassemblyView.

(** What the search reads of an [edb::Instruction]: its validity
    ([operator bool]) and [byte_size()]. *)
Record Instruction := { valid : bool; byte_size : nat }.

(** The bytes between the pointers [buf+first] and [buf+last]. *)
Definition window (buf : list byte) (first last : nat) : list byte :=
  take (last - first) (drop first buf).

Section Search.
(** The instruction decoder is an external collaborator:
    [edb::Instruction(first, last, 0)] decodes the bytes of
    [first, last) at address 0. *)
Context (decode : list byte -> Instruction).
Context (buf : list byte) (bufSize curInstOffset : nat).

(** Each loop is
    [for(size_t offs = curInstOffset-1; offs != size_t(-1); --offs)]:
    it visits [curInstOffset-1], ..., [0] in that order and not at all
    when [curInstOffset] is 0.  The first argument is [offs+1].
    Offsets and lengths are [size_t] values within one buffer in memory;
    the sums the code forms of them do not wrap around and are taken in
    [nat]. *)

(** stage 1: try to find longest instruction which ends exactly before
    current one *)
Fixpoint stage1 (n : nat) (finalSize : nat) : nat :=
  match n with
  | O => finalSize
  | S offs =>
      let inst := decode (window buf offs curInstOffset) in
      stage1 offs
        (if valid inst && (offs + byte_size inst =? curInstOffset)%nat
         then byte_size inst else finalSize)
  end.

(** stage 2: a previous instruction followed by a new current one that
    ends exactly at the end of the original current instruction *)
Fixpoint stage2 (originalCurrentInst : Instruction) (n : nat)
    (finalSize : nat) : nat :=
  match n with
  | O => finalSize
  | S offs =>
      let instPrev := decode (window buf offs curInstOffset) in
      if negb (valid instPrev) then stage2 originalCurrentInst offs finalSize
      else
        let instNewCur :=
          decode (window buf (offs + byte_size instPrev) bufSize) in
        stage2 originalCurrentInst offs
          (if valid instNewCur
              && (offs + byte_size instPrev + byte_size instNewCur
                  =? curInstOffset + byte_size originalCurrentInst)%nat
           then (curInstOffset - offs)%nat else finalSize)
  end.

(** stage 3: the nearest offset at which decoding fails *)
Fixpoint stage3 (n : nat) : nat :=
  match n with
  | O => 0%nat
  | S offs =>
      let inst := decode (window buf offs bufSize) in
      if negb (valid inst) then (curInstOffset - offs)%nat
      else stage3 offs
  end.

Definition length_disasm_back : nat :=
  let finalSize := stage1 curInstOffset 0 in
  if negb (finalSize =? 0)%nat then finalSize
  else
    let originalCurrentInst := decode (window buf curInstOffset bufSize) in
    let finalSize := stage2 originalCurrentInst curInstOffset finalSize in
    if negb (finalSize =? 0)%nat then finalSize
    else stage3 curInstOffset.

(** A candidate of stage 1: the instruction decoded at [offs] is valid
    and ends where the current instruction starts. *)
Definition ends_at_current (offs : nat) : bool :=
  let inst := decode (window buf offs curInstOffset) in
  valid inst && (offs + byte_size inst =? curInstOffset)%nat.

End Search.

(** A small decoder for the worked examples: [90] is a one-byte
    instruction, [66 90] a two-byte one, [b8] takes a four-byte
    immediate; everything else, and a truncated instruction, is invalid
    with length 1. *)
Definition sample_decode (bytes : list byte) : Instruction :=
  match bytes with
  | x90 :: _ => {| valid := true; byte_size := 1 |}
  | x66 :: x90 :: _ => {| valid := true; byte_size := 2 |}
  | xb8 :: _ :: _ :: _ :: _ :: _ => {| valid := true; byte_size := 5 |}
  | _ => {| valid := false; byte_size := 1 |}
  end.

(** *** What stages 2 and 3 look for *)

Section LaterStages.
Context (decode : list byte -> Instruction).
Context (buf : list byte) (bufSize curInstOffset : nat).

(** A candidate of stage 2: a valid instruction at [offs], followed by a
    valid instruction that ends where the instruction decoded at the
    current offset ends. *)
Definition bridges_current (offs : nat) : bool :=
  let originalCurrentInst := decode (window buf curInstOffset bufSize) in
  let instPrev := decode (window buf offs curInstOffset) in
  let instNewCur := decode (window buf (offs + byte_size instPrev) bufSize) in
  valid instPrev && valid instNewCur
  && (offs + byte_size instPrev + byte_size instNewCur
      =? curInstOffset + byte_size originalCurrentInst)%nat.

(** A candidate of stage 3: decoding at [offs], with the rest of the
    buffer to read from, fails. *)
Definition fails_at (offs : nat) : bool :=
  negb (valid (decode (window buf offs bufSize))).

End LaterStages.

(** *** Forward listing and navigation *)

(** [int(x)] of a 64-bit unsigned [x]: the low 32 bits, signed. *)
Definition to_int (x : Z) : Z := (x + 2 ^ 31) mod 2 ^ 32 - 2 ^ 31.

Section Listing.
(** [edb::Instruction(first, last, rva)] with the address it is decoded
    at, and [edb::v1::get_instruction_bytes(address, buf, &size)], which
    reads at most [size] bytes and reports how many it read, or fails. *)
Context (decode_at : Z -> list byte -> Instruction).
Context (get_instruction_bytes : Z -> Z -> option (list byte)).
(** [edb::Instruction::MAX_SIZE] *)
Context (MAX_SIZE : Z).

(** The loop of [updateDisassembly]:
    [while (line < lines_to_render && offset < max_offset)], which adds
    an instruction and its address per line.  The first argument is
    [lines_to_render - line]. *)
Fixpoint disassembly_loop (inst_buf : list byte) (start_address max_offset : Z)
    (remaining : nat) (offset : Z) : list (Z * Instruction) :=
  match remaining with
  | O => []
  | S remaining' =>
      if offset <? max_offset then
        let address := wrap64 (start_address + offset) in
        let inst :=
          decode_at address (window inst_buf (Z.to_nat offset) (length inst_buf)) in
        (address, inst)
        :: disassembly_loop inst_buf start_address max_offset remaining'
             (if valid inst then offset + Z.of_nat (byte_size inst)
              else offset + 1)
      else []
  end.

(** [updateDisassembly]: the lines ([show_addresses_] paired with
    [instructions_]); the number it returns is their count.
    [buffer_size] is [instruction_buffer_.size()], [start_address] is
    [address_offset_ + verticalScrollBar()->value()]. *)
Definition updateDisassembly (buffer_size start_address region_end : Z)
    (lines_to_render : nat) : list (Z * Instruction) :=
  match get_instruction_bytes start_address buffer_size with
  | None => []
  | Some inst_buf =>
      let bufsize := Z.of_nat (length inst_buf) in
      let max_offset :=
        Z.min (to_int (wrap64 (region_end - start_address))) bufsize in
      disassembly_loop inst_buf start_address max_offset lines_to_render 0
  end.

(** [following_instructions]; [region_end] is [region_->end()] when
    there is a region.  The loop stops at the first failure to read or
    to decode. *)
Fixpoint following_instructions (address_offset : Z) (region_end : option Z)
    (count : nat) (current_address : Z) : Z :=
  match count with
  | O => current_address
  | S count' =>
      let buf_size :=
        match region_end with
        | Some e => Z.min (wrap64 (e - current_address)) (MAX_SIZE + 1)
        | None => MAX_SIZE + 1
        end in
      match get_instruction_bytes (wrap64 (address_offset + current_address))
              buf_size with
      | None => wrap64 (current_address + 1)
      | Some buf =>
          let inst := decode_at current_address buf in
          if valid inst
          then following_instructions address_offset region_end count'
                 (wrap64 (current_address + Z.of_nat (byte_size inst)))
          else wrap64 (current_address + 1)
      end
  end.

(** The next [count] instructions from [current_address] on can all be
    read and decoded. *)
Fixpoint steps_decode (address_offset : Z) (region_end : option Z)
    (count : nat) (current_address : Z) : bool :=
  match count with
  | O => true
  | S count' =>
      let buf_size :=
        match region_end with
        | Some e => Z.min (wrap64 (e - current_address)) (MAX_SIZE + 1)
        | None => MAX_SIZE + 1
        end in
      match get_instruction_bytes (wrap64 (address_offset + current_address))
              buf_size with
      | None => false
      | Some buf =>
          let inst := decode_at current_address buf in
          valid inst
          && steps_decode address_offset region_end count'
               (wrap64 (current_address + Z.of_nat (byte_size inst)))
      end
  end.

(** [get_instruction_size(address)]: the number of bytes it asks for, the
    longest read that does not cross the end of the region. *)
Definition instruction_read_size (region_end address : Z) : Z :=
  let buf_size := MAX_SIZE in
  if negb (region_end =? 0) && (region_end <? wrap64 (address + buf_size))
  then if address <=? region_end then to_int (wrap64 (region_end - address))
       else 0
  else buf_size.

(** [get_instruction_size(address)], with
    [get_instruction_size(address, buf, &size)] and [instruction_size]
    inlined: the size of the instruction decoded at 0 from the bytes
    read, or [None] for the one failure there is ("Failed to get
    instruciton size"). *)
Definition get_instruction_size (region_end address : Z) : option Z :=
  let buf_size := instruction_read_size region_end address in
  if 0 <=? buf_size then
    match get_instruction_bytes address buf_size with
    | Some buf => Some (Z.of_nat (byte_size (decode_at 0 buf)))
    | None => None
    end
  else None.

End Listing.

(** How far a line advances: the length of a valid instruction, one byte
    otherwise. *)
Definition line_advance (inst : Instruction) : Z :=
  if valid inst then Z.of_nat (byte_size inst) else 1.

(** Memory for the worked examples: ten bytes at address 0, of which a
    read returns as many as asked for and present, and fails beyond. *)
Definition sample_memory : list byte :=
  [x90; x66; x90; x01; xb8; x00; x00; x00; x00; x90].

Definition sample_read (address size : Z) : option (list byte) :=
  if (0 <=? address) && (address <? 10)
  then Some (take (Z.to_nat size) (drop (Z.to_nat address) sample_memory))
  else None.

(** [get_line_of_address]: the [ok] flag and [line]; [None] stands for
    the read of [show_addresses_[0]] in an empty vector. *)
Definition get_line_of_address (show_addresses : list Z) (addr : Z)
    : option (bool * nat) :=
  match head show_addresses, last show_addresses with
  | Some first, Some lst =>
      if (first <=? addr) && (addr <=? lst) then
        match list_find (fun a => a = addr) show_addresses with
        | Some (pos, _) => Some (true, pos)
        | None => Some (false, 0%nat)
        end
      else Some (false, 0%nat)
  | _, _ => None
  end.

(** *** Saving and restoring the column positions *)

(** [quint8] from the low 8 bits of an integer, and back. *)
Definition byte_of_Z (z : Z) : byte :=
  default x00 (Byte.of_N (Z.to_N (z mod 256))).

Definition Z_of_byte (b : byte) : Z := Z.of_N (Byte.to_N b).

(** The object representation of an [int] (four bytes, least significant
    first), as [memcpy] copies it. *)
Definition int_bytes (z : Z) : list byte :=
  [byte_of_Z z; byte_of_Z (z / 2 ^ 8); byte_of_Z (z / 2 ^ 16);
   byte_of_Z (z / 2 ^ 24)].

Definition bytes_int (bs : list byte) : Z :=
  to_int (Z_of_byte (nth 0 bs x00) + 2 ^ 8 * Z_of_byte (nth 1 bs x00)
          + 2 ^ 16 * Z_of_byte (nth 2 bs x00)
          + 2 ^ 24 * Z_of_byte (nth 3 bs x00)).

(** [struct WidgetState1 { int version; int line1; int line2; int line3; }]
    and the three members of the view it saves. *)
Record WidgetState1 := { version : Z; line1 : Z; line2 : Z; line3 : Z }.

Record Columns := { line1_ : Z; line2_ : Z; line3_ : Z }.

Definition sizeof_WidgetState1 : Z := 16.

Definition saveState (view : Columns) : list byte :=
  let state := {| version := sizeof_WidgetState1; line1 := line1_ view;
                  line2 := line2_ view; line3 := line3_ view |} in
  int_bytes (version state) ++ int_bytes (line1 state)
  ++ int_bytes (line2 state) ++ int_bytes (line3 state).

Definition restoreState (view : Columns) (stateBuffer : list byte) : Columns :=
  if sizeof_WidgetState1 <=? Z.of_nat (length stateBuffer) then
    let state := {| version := bytes_int (take 4 stateBuffer);
                    line1 := bytes_int (take 4 (drop 4 stateBuffer));
                    line2 := bytes_int (take 4 (drop 8 stateBuffer));
                    line3 := bytes_int (take 4 (drop 12 stateBuffer)) |} in
    if sizeof_WidgetState1 <=? version state then
      {| line1_ := line1 state; line2_ := line2 state; line3_ := line3 state |}
    else view
  else view.

End QDisassemblyView.

(** ** Register state *)

(** What the architecture processors read of a [Register]: its validity
    ([operator bool]) and [valueAsAddress()] / [valueAsInteger()]. *)
Record Register := { reg_valid : bool; reg_value : Z }.

Definition valueAsAddress (r : Register) : Z := reg_value r.
Definition valueAsInteger (r : Register) : Z := reg_value r.

(** The queries of [State] the code makes: [state[name]],
    [state.gp_register(n)] and [state.flags_register()].  A register the
    state cannot resolve comes back invalid. *)
Record State := {
  by_name : string -> Register;
  gp_register : Z -> Register;
  flags_register : Register
}.

(** States for the worked examples: the registers a finite map names,
    the general purpose registers of a list, and the flags if given;
    every other register is invalid. *)
Definition register_of (v : option Z) : Register :=
  match v with
  | Some v => {| reg_valid := true; reg_value := v |}
  | None => {| reg_valid := false; reg_value := 0 |}
  end.

Definition state_of (named : gmap string Z) (gp : list Z) (flags : option Z)
    : State := {|
  by_name := fun n => register_of (named !! n);
  gp_register := fun i =>
    register_of (if i <? 0 then None else gp !! Z.to_nat i);
  flags_register := register_of flags
|}.

(** [Result<T>]: a value, or the reason there is none. *)
Inductive Error :=
| operand_is_invalid
| bad_operand_register
| failed_to_get_register (regIndex : Z)
| failed_to_get_CPSR
| unsupported_cpu_mode
| not_implemented.

Inductive Result (T : Type) :=
| Value (v : T)
| Failed (e : Error).
Arguments Value {T} v.
Arguments Failed {T} e.

Definition succeeded {T} (r : Result T) : bool :=
  match r with Value _ => true | Failed _ => false end.

(** ** arch/x86-generic/ArchProcessor.cpp *)

Module X86.

(** The two enumerators of capstone's [x86_reg] the code names. *)
Definition X86_REG_INVALID : Z := 0.
Definition X86_REG_RIP : Z := 41.

(** [op.expression()] *)
Record Expression := {
  base : Z;
  index : Z;
  scale : Z;
  displacement : Z
}.

(** [edb::Operand]: [general_type()] with the payload of each type;
    [valid()] is false for [TYPE_INVALID] only. *)
Inductive OperandData :=
| TYPE_INVALID
| TYPE_REGISTER (reg : Z)
| TYPE_EXPRESSION (expression : Expression)
| TYPE_ABSOLUTE (offset : Z)
| TYPE_IMMEDIATE (immediate : Z)
| TYPE_REL (relative_target : Z).

Definition data_valid (d : OperandData) : bool :=
  match d with TYPE_INVALID => false | _ => true end.

(** [edb::Instruction::Operation]: the enumerators [is_filling]
    distinguishes, and the rest. *)
Inductive Operation :=
| X86_INS_NOP
| X86_INS_INT3
| X86_INS_LEA
| X86_INS_MOV
| X86_INS_other (id : Z).

Record Instruction := {
  insn_valid : bool;
  operation : Operation;
  size : Z;
  prefix : Z;
  bytes : list byte;
  operands : list OperandData
}.

(** An operand knows the instruction it belongs to ([op.owner()]). *)
Record Operand := { owner : Instruction; data : OperandData }.

(** [inst.operands()[j]] *)
Definition operand_at (inst : Instruction) (j : nat) : Operand :=
  {| owner := inst; data := nth j (operands inst) TYPE_INVALID |}.

(** Declared outside this file: the formatter's names of registers and
    operands, the prefix bit masks of [edb::Instruction] and the
    configuration flag. *)
Record Externals := {
  register_name : Z -> string;
  to_string : OperandData -> string;
  PREFIX_GS : Z;
  PREFIX_FS : Z;
  zeros_are_filling : bool
}.

Section Processor.
Context (ext : Externals).

(** The segment bases are added the same way for an expression and for
    an absolute operand: [gs_base] first, then [fs_base], and
    [return 0] (with [ok] still false) when one is needed and the
    state does not have it. *)
Definition add_segment_bases (op : Operand) (state : State) (ret : Z)
    : Z * bool :=
  let gsBase := by_name state "gs_base" in
  let fsBase := by_name state "fs_base" in
  if negb (Z.land (prefix (owner op)) (PREFIX_GS ext) =? 0) && negb (reg_valid gsBase)
  then (0, false)
  else
    let ret :=
      if negb (Z.land (prefix (owner op)) (PREFIX_GS ext) =? 0)
      then wrap64 (ret + valueAsAddress gsBase) else ret in
    if negb (Z.land (prefix (owner op)) (PREFIX_FS ext) =? 0) && negb (reg_valid fsBase)
    then (0, false)
    else
      if negb (Z.land (prefix (owner op)) (PREFIX_FS ext) =? 0)
      then (wrap64 (ret + valueAsAddress fsBase), true)
      else (ret, true).

(** Returns the address and the [ok] flag. *)
Definition get_effective_address (op : Operand) (state : State) : Z * bool :=
  if data_valid (data op) then
    match data op with
    | TYPE_REGISTER _ =>
        (valueAsAddress (by_name state (to_string ext (data op))), true)
    | TYPE_EXPRESSION e =>
        let baseR := by_name state (register_name ext (base e)) in
        let indexR := by_name state (register_name ext (index e)) in
        let base0 := if reg_valid baseR then valueAsAddress baseR else 0 in
        let index0 := if reg_valid indexR then valueAsAddress indexR else 0 in
        let base1 :=
          if base e =? X86_REG_RIP then wrap64 (base0 + size (owner op))
          else base0 in
        let ret := wrap64 (base1 + index0 * scale e + displacement e) in
        add_segment_bases op state ret
    | TYPE_ABSOLUTE offset => add_segment_bases op state offset
    | TYPE_IMMEDIATE _ => (0, true)
    | TYPE_REL target => (target, true)
    | TYPE_INVALID => (0, true)
    end
  else (0, true).

Definition is_filling (inst : Instruction) : bool :=
  if insn_valid inst then
    let operands0 := operand_at inst 0 in
    let operands1 := operand_at inst 1 in
    let ret :=
      match operation inst with
      | X86_INS_NOP | X86_INS_INT3 => true
      | X86_INS_LEA =>
          match data operands0, data operands1 with
          | TYPE_REGISTER reg1, TYPE_EXPRESSION e =>
              if scale e =? 1 then
                if displacement e =? 0 then
                  if base e =? X86_REG_INVALID then reg1 =? index e
                  else if index e =? X86_REG_INVALID then reg1 =? base e
                  else false
                else false
              else false
          | _, _ => false
          end
      | X86_INS_MOV =>
          match data operands0, data operands1 with
          | TYPE_REGISTER r0, TYPE_REGISTER r1 => r0 =? r1
          | _, _ => false
          end
      | X86_INS_other _ => false
      end in
    if negb ret then
      if zeros_are_filling ext
      then bool_decide (take (Z.to_nat (size inst)) (bytes inst) = [x00; x00])
      else ret
    else ret
  else (size inst =? 1) && bool_decide (head (bytes inst) = Some x00).

End Processor.

(** The worked examples: a formatter that knows [eax], [rax] and [rip]
    (19, 35 and 41 in capstone's numbering), two distinct prefix bits,
    and the instructions [nop], [mov eax, eax], [lea eax, [eax]], and a
    four-byte instruction with the operand [[rip+0x10]] or
    [[rax+0x10]]. *)
Definition sample_register_name (r : Z) : string :=
  if r =? 19 then "eax" else if r =? 35 then "rax"
  else if r =? 41 then "rip" else "".

Definition sample_externals : Externals := {|
  register_name := sample_register_name;
  to_string := fun d =>
    match d with TYPE_REGISTER r => sample_register_name r | _ => "" end;
  PREFIX_GS := 0x2000;
  PREFIX_FS := 0x1000;
  zeros_are_filling := false
|}.

Definition nop : Instruction := {|
  insn_valid := true; operation := X86_INS_NOP; size := 1; prefix := 0;
  bytes := [x90]; operands := []
|}.

Definition mov_eax_eax : Instruction := {|
  insn_valid := true; operation := X86_INS_MOV; size := 2; prefix := 0;
  bytes := [x89; xc0];
  operands := [TYPE_REGISTER 19; TYPE_REGISTER 19]
|}.

Definition lea_eax_eax : Instruction := {|
  insn_valid := true; operation := X86_INS_LEA; size := 2; prefix := 0;
  bytes := [x8d; x00];
  operands :=
    [TYPE_REGISTER 19;
     TYPE_EXPRESSION {| base := 19; index := X86_REG_INVALID;
                        scale := 1; displacement := 0 |}]
|}.

Definition four_byte_insn_with (d : OperandData) : Instruction := {|
  insn_valid := true; operation := X86_INS_other 0; size := 4; prefix := 0;
  bytes := [x00; x00; x00; x00]; operands := [d]
|}.

Definition mem_plus_0x10 (baseReg : Z) : Operand :=
  operand_at
    (four_byte_insn_with
       (TYPE_EXPRESSION {| base := baseReg; index := X86_REG_INVALID;
                           scale := 1; displacement := 0x10 |})) 0.

(** *** Condition codes *)

(** [rCX] of [enum RegisterIndex] *)
Definition rCX : Z := 1.

(** The enumerators of [edb::Instruction::ConditionCode] that stand for
    no flag test; their values are declared outside this file. *)
Record ConditionCodes := {
  CC_UNCONDITIONAL : Z;
  CC_RCXZ : Z;
  CC_ECXZ : Z;
  CC_CXZ : Z
}.

(** [state.flags()]: the value of the flags register. *)
Definition flags (state : State) : Z := valueAsInteger (flags_register state).

(** [reg.value<edb::value64>()], [value32] and [value16]: the low 64, 32
    and 16 bits. *)
Definition value64 (r : Register) : Z := reg_value r mod 2 ^ 64.
Definition value32 (r : Register) : Z := reg_value r mod 2 ^ 32.
Definition value16 (r : Register) : Z := reg_value r mod 2 ^ 16.

Definition is_jcc_taken (cc : ConditionCodes) (state : State) (cond : Z) : bool :=
  if cond =? CC_UNCONDITIONAL cc then true
  else if cond =? CC_RCXZ cc then value64 (gp_register state rCX) =? 0
  else if cond =? CC_ECXZ cc then value32 (gp_register state rCX) =? 0
  else if cond =? CC_CXZ cc then value16 (gp_register state rCX) =? 0
  else
    let efl := flags state in
    let cf := negb (Z.land efl 0x0001 =? 0) in
    let pf := negb (Z.land efl 0x0004 =? 0) in
    let zf := negb (Z.land efl 0x0040 =? 0) in
    let sf := negb (Z.land efl 0x0080 =? 0) in
    let of' := negb (Z.land efl 0x0800 =? 0) in
    let taken :=
      match Z.land cond 0x0e with
      | 0x00 => of'
      | 0x02 => cf
      | 0x04 => zf
      | 0x06 => cf || zf
      | 0x08 => sf
      | 0x0a => pf
      | 0x0c => negb (Bool.eqb sf of')
      | 0x0e => zf || negb (Bool.eqb sf of')
      | _ => false
      end in
    if negb (Z.land cond 0x01 =? 0) then negb taken else taken.

(** The flag tests by themselves, as a function of the five flags; the
    properties of [is_jcc_taken] are read off it. *)
Definition flag_test (cf pf zf sf of' : bool) (cond : Z) : bool :=
  let taken :=
    match Z.land cond 0x0e with
    | 0x00 => of'
    | 0x02 => cf
    | 0x04 => zf
    | 0x06 => cf || zf
    | 0x08 => sf
    | 0x0a => pf
    | 0x0c => negb (Bool.eqb sf of')
    | 0x0e => zf || negb (Bool.eqb sf of')
    | _ => false
    end in
  if negb (Z.land cond 0x01 =? 0) then negb taken else taken.

(** The sixteen flag tests are the codes 0 to 15; the four special codes
    lie outside them. *)
Definition special_codes_apart (cc : ConditionCodes) : Prop :=
  ~ 0 <= CC_UNCONDITIONAL cc <= 15 /\ ~ 0 <= CC_RCXZ cc <= 15
  /\ ~ 0 <= CC_ECXZ cc <= 15 /\ ~ 0 <= CC_CXZ cc <= 15.

(** Further worked examples: a single zero byte that does not decode,
    and the operand [fs:[0x28]] of a nine-byte [mov]. *)
Definition invalid_zero_byte : Instruction := {|
  insn_valid := false; operation := X86_INS_other 0; size := 1; prefix := 0;
  bytes := [x00]; operands := []
|}.

Definition fs_absolute_0x28 : Operand := {|
  owner := {| insn_valid := true; operation := X86_INS_MOV; size := 9;
              prefix := 0x1000; bytes := []; operands := [] |};
  data := TYPE_ABSOLUTE 0x28
|}.

(** Condition codes for the worked examples: the four special ones
    above the sixteen flag tests. *)
Definition sample_condition_codes : ConditionCodes := {|
  CC_UNCONDITIONAL := 0x10; CC_CXZ := 0x11; CC_ECXZ := 0x12; CC_RCXZ := 0x13
|}.

(** A state whose flags are [efl] and whose [rcx] is [rcx]. *)
Definition state_with (efl rcx : Z) : State := state_of ∅ [0; rcx] (Some efl).

(** The flags word with the given carry, parity, zero, sign and overflow
    flags. *)
Definition eflags_of (cf pf zf sf of' : bool) : Z :=
  (if cf then 0x0001 else 0) + (if pf then 0x0004 else 0)
  + (if zf then 0x0040 else 0) + (if sf then 0x0080 else 0)
  + (if of' then 0x0800 else 0).

End X86.

(** ** arch/arm-generic/ArchProcessor.cpp *)

Module ARM.

(** capstone's [arm_reg]: the sixteen general purpose registers the
    code names, the invalid register, and the rest. *)
Inductive arm_reg :=
| ARM_REG_INVALID
| ARM_REG_R0 | ARM_REG_R1 | ARM_REG_R2 | ARM_REG_R3
| ARM_REG_R4 | ARM_REG_R5 | ARM_REG_R6 | ARM_REG_R7
| ARM_REG_R8 | ARM_REG_R9 | ARM_REG_R10 | ARM_REG_R11
| ARM_REG_R12 | ARM_REG_R13 | ARM_REG_R14 | ARM_REG_R15
| ARM_REG_other (id : Z).

(** capstone's [arm_shifter] *)
Inductive arm_shifter :=
| ARM_SFT_INVALID
| ARM_SFT_ASR | ARM_SFT_LSL | ARM_SFT_LSR | ARM_SFT_ROR | ARM_SFT_RRX
| ARM_SFT_ASR_REG | ARM_SFT_LSL_REG | ARM_SFT_LSR_REG | ARM_SFT_ROR_REG
| ARM_SFT_RRX_REG.

(** [operand->mem] *)
Record arm_op_mem := {
  base : arm_reg;
  index : arm_reg;
  scale : Z;
  disp : Z
}.

(** The operand kinds [is_register] and [is_expression] tell apart, with
    the member of the union each one reads. *)
Inductive OperandData :=
| ARM_OP_REG (reg : arm_reg)
| ARM_OP_MEM (mem : arm_op_mem)
| ARM_OP_other.

Record Operand := {
  op_valid : bool;
  data : OperandData;
  shift_type : arm_shifter;
  shift_value : Z
}.

Record Instruction := { insn_valid : bool; rva : Z }.

(** [IDebugger::CPUMode] *)
Inductive CPUMode :=
| Unknown | x86_16 | x86_32 | x86_64 | ARM32 | Thumb | ARM64.

(** Returns [regIndex] and the [ok] flag. *)
Definition capstoneRegToGPRIndex (capstoneReg : arm_reg) : Z * bool :=
  match capstoneReg with
  | ARM_REG_R0 => (0, true)
  | ARM_REG_R1 => (1, true)
  | ARM_REG_R2 => (2, true)
  | ARM_REG_R3 => (3, true)
  | ARM_REG_R4 => (4, true)
  | ARM_REG_R5 => (5, true)
  | ARM_REG_R6 => (6, true)
  | ARM_REG_R7 => (7, true)
  | ARM_REG_R8 => (8, true)
  | ARM_REG_R9 => (9, true)
  | ARM_REG_R10 => (10, true)
  | ARM_REG_R11 => (11, true)
  | ARM_REG_R12 => (12, true)
  | ARM_REG_R13 => (13, true)
  | ARM_REG_R14 => (14, true)
  | ARM_REG_R15 => (15, true)
  | _ => (-1, false)
  end.

(** [cpuMode] is what [edb::v1::debugger_core->cpu_mode()] reports. *)
Definition adjustR15Value (cpuMode : CPUMode) (insn : Instruction)
    (regIndex : Z) (value : Z) : Result Z :=
  if regIndex =? 15 then
    match cpuMode with
    | ARM32 => Value (wrap64 (rva insn + 8))
    | Thumb => Value (wrap64 (rva insn + 4))
    | _ => Failed unsupported_cpu_mode
    end
  else Value value.

Definition highBit : Z := Z.shiftl 1 31.

(** [~y] on [uint32_t] *)
Definition not32 (y : Z) : Z := Z.lxor (wrap32 y) (2 ^ 32 - 1).

(** [uint32_t shift(uint32_t x, arm_shifter type, uint32_t shiftAmount,
    bool carryFlag)]; [None] when an [assert] on the shift amount
    fails, and for a logical shift right by more than 32, where the
    result of [x>>N] is undefined. *)
Definition shift (x : Z) (type : arm_shifter) (shiftAmount : Z)
    (carryFlag : bool) : option Z :=
  let N := shiftAmount in
  match type with
  | ARM_SFT_INVALID => Some x
  | ARM_SFT_ASR | ARM_SFT_ASR_REG =>
      if (1 <=? N) && (N <=? 32) then
        Some (if N =? 32
              then wrap32 (- Z.shiftr (Z.land x highBit) 31)
              else Z.lor (Z.shiftr x N)
                     (not32 (Z.shiftr (Z.land x highBit) N - 1)))
      else None
  | ARM_SFT_LSL | ARM_SFT_LSL_REG =>
      if (0 <=? N) && (N <=? 31) then Some (wrap32 (Z.shiftl x N))
      else None
  | ARM_SFT_LSR | ARM_SFT_LSR_REG =>
      if N =? 32 then Some 0
      else if N <? 32 then Some (Z.shiftr x N)
      else None
  | ARM_SFT_ROR | ARM_SFT_ROR_REG =>
      if (1 <=? N) && (N <=? 31) then
        Some (Z.lor (Z.shiftr x N)
                (wrap32 (Z.shiftl x (Z.land (wrap32 (- N)) 31))))
      else None
  | ARM_SFT_RRX | ARM_SFT_RRX_REG =>
      Some (Z.lor (Z.shiftl (if carryFlag then 1 else 0) 31) (Z.shiftr x 1))
  end.

(** [None] when [shift] has no result; otherwise the
    [Result<edb::address_t>]. *)
Definition get_effective_address (cpuMode : CPUMode) (insn : Instruction)
    (operand : Operand) (state : State) : option (Result Z) :=
  if negb (op_valid operand) || negb (insn_valid insn)
  then Some (Failed operand_is_invalid)
  else
    match data operand with
    | ARM_OP_REG reg =>
        let '(regIndex, ok) := capstoneRegToGPRIndex reg in
        if negb ok then Some (Failed bad_operand_register)
        else
          let reg := gp_register state regIndex in
          if negb (reg_valid reg)
          then Some (Failed (failed_to_get_register regIndex))
          else Some (adjustR15Value cpuMode insn regIndex (valueAsAddress reg))
    | ARM_OP_MEM mem =>
        let '(baseIndex, ok) := capstoneRegToGPRIndex (base mem) in
        let baseR := gp_register state baseIndex in
        (* base must be valid *)
        if negb ok || negb (reg_valid baseR)
        then Some (Failed (failed_to_get_register baseIndex))
        else
          let '(indexIndex, ok) := capstoneRegToGPRIndex (index mem) in
          (* index register may be irrelevant, only try to get it if its
             index is valid *)
          if ok && negb (reg_valid (gp_register state indexIndex))
          then Some (Failed (failed_to_get_register indexIndex))
          else
            let cpsrR := flags_register state in
            if negb (reg_valid cpsrR)
               && match shift_type operand with
                  | ARM_SFT_RRX | ARM_SFT_RRX_REG => true
                  | _ => false
                  end
            then Some (Failed failed_to_get_CPSR)
            else
              let C :=
                if reg_valid cpsrR
                then negb (Z.land (valueAsInteger cpsrR) 0x20000000 =? 0)
                else false in
              let addr := valueAsAddress baseR in
              match adjustR15Value cpuMode insn baseIndex addr with
              | Value adjusted =>
                  let addr := wrap64 (adjusted + disp mem) in
                  if ok then
                    match shift (wrap32 (valueAsAddress (gp_register state indexIndex)))
                            (shift_type operand) (shift_value operand) C with
                    | Some shifted =>
                        Some (Value (wrap64 (addr + wrap32 (scale mem * shifted))))
                    | None => None
                    end
                  else Some (Value addr)
              | Failed e => Some (Failed e)
              end
    | ARM_OP_other => Some (Failed not_implemented)
    end.

Definition is_jcc_taken (cpsr : Z) (cond : Z) : bool :=
  let N := negb (Z.land cpsr 0x80000000 =? 0) in
  let Z := negb (Z.land cpsr 0x40000000 =? 0) in
  let C := negb (Z.land cpsr 0x20000000 =? 0) in
  let V := negb (Z.land cpsr 0x10000000 =? 0) in
  let taken :=
    match Z.land cond 0xe with
    | 0x0 => Z
    | 0x2 => C
    | 0x4 => N
    | 0x6 => V
    | 0x8 => C && negb Z
    | 0xa => Bool.eqb N V
    | 0xc => negb Z && Bool.eqb N V
    | 0xe => true
    | _ => false
    end in
  if negb (Z.land cond 1 =? 0) then negb taken else taken.

(** The worked examples: an instruction at [0x2000], the operands
    [[pc]] (base [r15], no index, displacement 0) and [r0], and a state
    in which all sixteen registers are known, the PC being [0x2000]. *)
Definition insn_at_0x2000 : Instruction :=
  {| insn_valid := true; rva := 0x2000 |}.

Definition mem_pc : Operand := {|
  op_valid := true;
  data := ARM_OP_MEM {| base := ARM_REG_R15; index := ARM_REG_INVALID;
                        scale := 1; disp := 0 |};
  shift_type := ARM_SFT_INVALID;
  shift_value := 0
|}.

Definition reg_r0 : Operand := {|
  op_valid := true;
  data := ARM_OP_REG ARM_REG_R0;
  shift_type := ARM_SFT_INVALID;
  shift_value := 0
|}.





(** *** The comment on the flags *)

Definition jumpConditionMnemonics : list string :=
  [ "EQ"; "NE"; "HS"; "LO"; "MI"; "PL"; "VS"; "VC";
    "HI"; "LS"; "GE"; "LT"; "GT"; "LE"; "AL"; "??" ]%string.

(** [comment[comment.size()-1] = ')']: the last character replaced. *)
Fixpoint replace_last (s : string) (c : ascii) : string :=
  match s with
  | EmptyString => EmptyString
  | String a EmptyString => String c EmptyString
  | String a rest => String a (replace_last rest c)
  end.

(** The body of [cpsrComment] for a given test of the conditions:
    [for(int cond=0;cond<0x10-2;++cond) if(taken(cond))
    comment+=jumpConditionMnemonics[cond]+',';] from ["("], and the last
    character made [')']. *)
Definition comment_of (taken : Z -> bool) : string :=
  replace_last
    (foldl (fun comment cond =>
              if taken cond
              then (comment ++ nth (Z.to_nat cond) jumpConditionMnemonics ""
                    ++ ",")%string
              else comment)
       "("%string (seqZ 0 (0x10 - 2)))
    ")"%char.

Definition cpsrComment (flags : Z) : string :=
  comment_of (is_jcc_taken flags).

(** The conditions by themselves, as a function of the four flags; the
    properties of [is_jcc_taken] are read off it. *)
Definition condition_holds (n z c v : bool) (cond : Z) : bool :=
  let taken :=
    match Z.land cond 0xe with
    | 0x0 => z
    | 0x2 => c
    | 0x4 => n
    | 0x6 => v
    | 0x8 => c && negb z
    | 0xa => Bool.eqb n v
    | 0xc => negb z && Bool.eqb n v
    | 0xe => true
    | _ => false
    end in
  if negb (Z.land cond 1 =? 0) then negb taken else taken.

(** The CPSR with the given N, Z, C and V flags and nothing else. *)
Definition cpsr_of (n z c v : bool) : Z :=
  (if n then 0x80000000 else 0) + (if z then 0x40000000 else 0)
  + (if c then 0x20000000 else 0) + (if v then 0x10000000 else 0).

End ARM.

(** ** FloatX.cpp *)

Module FloatX.

(** [enum class FloatValueClass] *)
Inductive FloatValueClass :=
| Zero | Normal | Infinity | Denormal | PseudoDenormal | QNaN | SNaN
| Unsupported.

(** [detail::ieeeClassify<mantissaLength>(value)] for a value of [bits]
    bits ([8*sizeof value]). *)
Definition ieeeClassify (bits mantissaLength : Z) (value : Z) : FloatValueClass :=
  let expLength := bits - mantissaLength - 1 in
  let expMax := Z.shiftl 1 expLength - 1 in
  let QNaN_mask := Z.shiftl 1 (mantissaLength - 1) in
  let mantissa := Z.land value (Z.shiftl 1 mantissaLength - 1) in
  let exponent := Z.land (Z.shiftr value mantissaLength) expMax in
  if exponent =? expMax then
    if mantissa =? 0 then Infinity
    else if negb (Z.land mantissa QNaN_mask =? 0) then QNaN
    else SNaN
  else if exponent =? 0 then
    if mantissa =? 0 then Zero else Denormal
  else Normal.

(** [floatType(edb::value32)] and [floatType(edb::value64)] *)
Definition floatType32 (value : Z) : FloatValueClass := ieeeClassify 32 23 value.
Definition floatType64 (value : Z) : FloatValueClass := ieeeClassify 64 52 value.

(** The members of [edb::value80] that [floatType] reads, for the value
    as an 80-bit number: [mantissa()] is its low 64 bits, [exponent()]
    the next 15, [negative()] the top bit. *)
Definition mantissa80 (value : Z) : Z := Z.land value (2 ^ 64 - 1).
Definition exponent80 (value : Z) : Z := Z.land (Z.shiftr value 64) (2 ^ 15 - 1).
Definition negative (bits : Z) (value : Z) : bool := Z.testbit value (bits - 1).

(** [floatType(edb::value80)] *)
Definition floatType80 (value : Z) : FloatValueClass :=
  let mantissaLength := 64 in
  let expLength := 8 * 10 - mantissaLength - 1 in
  let integerBitOnly := Z.shiftl 1 (mantissaLength - 1) in
  let QNaN_mask := Z.shiftl 3 (mantissaLength - 2) in
  let expMax := Z.shiftl 1 expLength - 1 in
  let exponent := exponent80 value in
  let mantissa := mantissa80 value in
  let integerBitSet := negb (Z.land mantissa integerBitOnly =? 0) in
  if exponent =? expMax then
    if mantissa =? integerBitOnly then Infinity
    else if Z.land mantissa QNaN_mask =? QNaN_mask then QNaN
    else if Z.land mantissa QNaN_mask =? integerBitOnly then SNaN
    else Unsupported
  else if exponent =? 0 then
    if mantissa =? 0 then Zero
    else if negb integerBitSet then Denormal
    else PseudoDenormal
  else
    if integerBitSet then Normal else Unsupported.

(** [SpecialValues<Float>]: the object representations, least
    significant byte first. *)
Record SpecialValues := {
  positiveInf : list byte;
  negativeInf : list byte;
  positiveSNaN : list byte;
  negativeSNaN : list byte;
  positiveQNaN : list byte;
  negativeQNaN : list byte
}.

Definition SpecialValues_double : SpecialValues := {|
  positiveInf := [x00; x00; x00; x00; x00; x00; xf0; x7f];
  negativeInf := [x00; x00; x00; x00; x00; x00; xf0; xff];
  positiveSNaN := [x00; x00; x00; x00; x00; x00; xfc; x7f];
  negativeSNaN := [x00; x00; x00; x00; x00; x00; xfc; xff];
  positiveQNaN := [x00; x00; x00; x00; x00; x00; xf8; x7f];
  negativeQNaN := [x00; x00; x00; x00; x00; x00; xf8; xff]
|}.

Definition SpecialValues_float : SpecialValues := {|
  positiveInf := [x00; x00; x80; x7f];
  negativeInf := [x00; x00; x80; xff];
  positiveSNaN := [x00; x00; xe0; x7f];
  negativeSNaN := [x00; x00; xe0; xff];
  positiveQNaN := [x00; x00; xc0; x7f];
  negativeQNaN := [x00; x00; xc0; xff]
|}.

Definition SpecialValues_long_double : SpecialValues := {|
  positiveInf := [x00; x00; x00; x00; x00; x00; x00; x80; xff; x7f];
  negativeInf := [x00; x00; x00; x00; x00; x00; x00; x80; xff; xff];
  positiveSNaN := [x00; x00; x00; x00; x00; x00; x00; x90; xff; x7f];
  negativeSNaN := [x00; x00; x00; x00; x00; x00; x00; x90; xff; xff];
  positiveQNaN := [x00; x00; x00; x00; x00; x00; x00; xc0; xff; x7f];
  negativeQNaN := [x00; x00; x00; x00; x00; x00; x00; xc0; xff; xff]
|}.

(** [readFloat<Float>]: the object representation of the result and the
    [ok] flag.  [lower_trimmed] is [strInput.toLower().trimmed()],
    [fullStringToFloat] is [util::fullStringToFloat<Float>], and [zero]
    is the representation of [Float(0)]. *)
Definition readFloat (sv : SpecialValues) (lower_trimmed : string -> string)
    (fullStringToFloat : string -> option (list byte)) (zero : list byte)
    (strInput : string) : list byte * bool :=
  let str := lower_trimmed strInput in
  match fullStringToFloat str with
  | Some value => (value, true)
  | None =>
      if String.eqb str "+snan" || String.eqb str "snan"
      then (positiveSNaN sv, true)
      else if String.eqb str "-snan" then (negativeSNaN sv, true)
      else if String.eqb str "+qnan" || String.eqb str "qnan"
              || String.eqb str "nan"
      then (positiveQNaN sv, true)
      else if String.eqb str "-qnan" then (negativeQNaN sv, true)
      else if String.eqb str "+inf" || String.eqb str "inf"
      then (positiveInf sv, true)
      else if String.eqb str "-inf" then (negativeInf sv, true)
      else (zero, false)
  end.

(** The number whose object representation, least significant byte
    first, [bs] is. *)
Fixpoint le_value (bs : list byte) : Z :=
  match bs with
  | [] => 0
  | b :: rest => Z.of_N (Byte.to_N b) + 2 ^ 8 * le_value rest
  end.

(** The special names and what they stand for: the class, and whether
    the value is negative. *)
Definition special_names : list (string * (FloatValueClass * bool)) :=
  [ ("+snan", (SNaN, false)); ("snan", (SNaN, false)); ("-snan", (SNaN, true));
    ("+qnan", (QNaN, false)); ("qnan", (QNaN, false)); ("nan", (QNaN, false));
    ("-qnan", (QNaN, true));
    ("+inf", (Infinity, false)); ("inf", (Infinity, false));
    ("-inf", (Infinity, true)) ]%string.

(** The grouping of the hexadecimal digits at the end of [formatFloat]:
    [if(hexStr.size()>8) hexStr.insert(hexStr.size()-8,groupSeparator);
    if(hexStr.size()>16+1) hexStr.insert(hexStr.size()-16-1,groupSeparator);]
    with the string as its list of characters. *)
Definition insert_at (pos : nat) (c : ascii) (s : list ascii) : list ascii :=
  take pos s ++ c :: drop pos s.

Definition group_hex (hexStr : list ascii) : list ascii :=
  let groupSeparator := " "%char in
  let hexStr :=
    if (8 <? length hexStr)%nat
    then insert_at (length hexStr - 8) groupSeparator hexStr else hexStr in
  if (16 + 1 <? length hexStr)%nat
  then insert_at (length hexStr - 16 - 1) groupSeparator hexStr else hexStr.

(** [formatFloat(value)], given what it reads of the value: its class
    [floatType(value)], [value.negative()], [value.toHexString()], and
    [decimal], the digits the conversion to decimal produces for a
    normal or denormal value. *)
Definition formatFloat (type : FloatValueClass) (is_negative : bool)
    (hexStr decimal : list ascii) : list ascii :=
  let sign := if is_negative then "-"%char else "+"%char in
  let special (specialStr : list ascii) := specialStr ++ group_hex hexStr in
  match type with
  | Zero =>
      if is_negative then String.list_ascii_of_string "-0.0"
      else String.list_ascii_of_string "0.0"
  | PseudoDenormal | Normal | Denormal =>
      match decimal with
      | [d] => if (("0" <=? d) && (d <=? "9"))%char
               then decimal ++ String.list_ascii_of_string ".0" else decimal
      | _ => decimal
      end
  | Infinity => sign :: String.list_ascii_of_string "INF"
  | QNaN => special (sign :: String.list_ascii_of_string "QNAN ")
  | SNaN => special (sign :: String.list_ascii_of_string "SNAN ")
  | Unsupported => special (sign :: String.list_ascii_of_string "BAD ")
  end.

End FloatX.

(** * Properties *)

(** ** The signal catalog *)

Section SignalCatalog.
Import DebuggerCoreUNIX.

Lemma signal_macros_NoDup : NoDup signal_macros.
Proof. apply (bool_decide_unpack _). vm_compute. reflexivity. Qed.

Lemma ifdef_names (p : gmap string Z) (m n : string) :
  n ∈ name <$> ifdef p m -> n = m.
Proof.
  unfold ifdef. destruct (p !! m); simpl.
  - intros H. apply list_elem_of_singleton in H. exact H.
  - intros H. inversion H.
Qed.

Lemma catalog_names_from (p : gmap string Z) (l : list string) (n : string) :
  n ∈ name <$> flat_map (ifdef p) l -> n ∈ l.
Proof.
  induction l as [|m l IH]; simpl; intros H.
  - inversion H.
  - rewrite fmap_app in H. apply elem_of_app in H as [H|H].
    + apply ifdef_names in H. subst. left.
    + right. auto.
Qed.

Lemma catalog_names_NoDup_from (p : gmap string Z) (l : list string) :
  NoDup l -> NoDup (name <$> flat_map (ifdef p) l).
Proof.
  induction 1 as [|m l Hm Hl IH]; simpl.
  - constructor.
  - rewrite fmap_app. apply NoDup_app. split; [|split].
    + unfold ifdef. destruct (p !! m); simpl; [apply NoDup_singleton | constructor].
    + intros n Hn Hn'. apply ifdef_names in Hn. subst.
      apply Hm. eapply catalog_names_from. exact Hn'.
    + exact IH.
Qed.

(** No name occurs twice in the table, whatever the platform defines. *)
Lemma Exceptions_names_NoDup (p : gmap string Z) :
  NoDup (name <$> Exceptions p).
Proof. apply catalog_names_NoDup_from, signal_macros_NoDup. Qed.

Lemma lookup_name_in (es : list Exception) (v : Z) :
  v ∈ value <$> es -> lookup_name es v ∈ name <$> es.
Proof.
  induction es as [|e es IH]; simpl; intros H.
  - inversion H.
  - destruct (Z.eqb_spec v (value e)) as [->|Hne].
    + left.
    + right. apply IH. apply elem_of_cons in H as [H|H]; [contradiction | exact H].
Qed.

Lemma lookup_value_name (es : list Exception) (v : Z) :
  NoDup (name <$> es) -> v ∈ value <$> es ->
  lookup_value es (lookup_name es v) = v.
Proof.
  induction es as [|e es IH]; simpl; intros Hnd H.
  - inversion H.
  - apply NoDup_cons in Hnd as [Hfresh Hnd].
    destruct (Z.eqb_spec v (value e)) as [->|Hne].
    + rewrite String.eqb_refl. reflexivity.
    + apply elem_of_cons in H as [H|H]; [contradiction|].
      destruct (String.eqb_spec (lookup_name es v) (name e)) as [Heq|_].
      * exfalso. apply Hfresh. rewrite <- Heq. apply lookup_name_in, H.
      * apply IH; assumption.
Qed.

Lemma lookup_value_unknown (es : list Exception) (n : string) :
  n ∉ name <$> es -> lookup_value es n = -1.
Proof.
  induction es as [|e es IH]; simpl; intros H; [reflexivity|].
  apply not_elem_of_cons in H as [Hne H].
  destruct (String.eqb_spec n (name e)); [contradiction | auto].
Qed.

Lemma lookup_name_unknown (es : list Exception) (v : Z) :
  v ∉ value <$> es -> lookup_name es v = ""%string.
Proof.
  induction es as [|e es IH]; simpl; intros H; [reflexivity|].
  apply not_elem_of_cons in H as [Hne H].
  destruct (Z.eqb_spec v (value e)); [contradiction | auto].
Qed.

(** C6: for every signal number [v] of the catalog, on every platform,
    the value of the name of [v] is [v] again; entries that share a
    number do not break this, because no two entries share a name. *)
Theorem exceptionValue_exceptionName (p : gmap string Z) (v : Z) :
  v ∈ value <$> Exceptions p ->
  exceptionValue p (exceptionName p v) = v.
Proof.
  intros Hv. unfold exceptionValue, exceptionName.
  apply lookup_value_name; [apply Exceptions_names_NoDup | exact Hv].
Qed.

(** On Linux [SIGPOLL] and [SIGIO] are both 29: the name found is the
    first one, and its value is 29. *)
Lemma exceptionValue_exceptionName_witness :
  29 ∈ value <$> Exceptions linux_x86
  /\ exceptionName linux_x86 29 = "SIGPOLL"%string
  /\ exceptionValue linux_x86 "SIGIO" = 29
  /\ exceptionValue linux_x86 (exceptionName linux_x86 29) = 29.
Proof.
  assert (H : 29 ∈ value <$> Exceptions linux_x86).
  { apply (bool_decide_unpack _). vm_compute. reflexivity. }
  split; [exact H|].
  split; [vm_compute; reflexivity|].
  split; [vm_compute; reflexivity|].
  exact (exceptionValue_exceptionName linux_x86 29 H).
Defined.

(** C7: a name the catalog does not have has the value -1, and a number
    the catalog does not have has the empty name; both lookups are total
    functions, so there is no other outcome. *)
Theorem unknown_signal_lookups (p : gmap string Z) :
  (forall n : string, n ∉ name <$> Exceptions p -> exceptionValue p n = -1)
  /\ (forall v : Z, v ∉ value <$> Exceptions p -> exceptionName p v = ""%string).
Proof.
  split; intros x Hx.
  - apply lookup_value_unknown, Hx.
  - apply lookup_name_unknown, Hx.
Qed.

Lemma unknown_signal_lookups_witness :
  ("SIGBOGUS"%string ∉ name <$> Exceptions linux_x86)
  /\ exceptionValue linux_x86 "SIGBOGUS" = -1
  /\ (0 ∉ value <$> Exceptions linux_x86)
  /\ exceptionName linux_x86 0 = ""%string.
Proof.
  assert (Hn : "SIGBOGUS"%string ∉ name <$> Exceptions linux_x86).
  { apply (bool_decide_unpack _). vm_compute. reflexivity. }
  assert (Hv : 0 ∉ value <$> Exceptions linux_x86).
  { apply (bool_decide_unpack _). vm_compute. reflexivity. }
  destruct (unknown_signal_lookups linux_x86) as [Hname Hval].
  split; [exact Hn|]. split; [exact (Hname _ Hn)|].
  split; [exact Hv|]. exact (Hval _ Hv).
Defined.

End SignalCatalog.

(** ** Interrupted system calls *)

Section RetryOnEINTR.
Import DebuggerCoreUNIX.
Context (os : OS).

Implicit Types (call : World os -> Z * World os) (w : World os).

Lemma interrupted_spec call w :
  interrupted os call w = true <->
  fst (call w) = -1 /\ errno os (snd (call w)) = EINTR.
Proof.
  unfold interrupted. rewrite andb_true_iff, !Z.eqb_eq. reflexivity.
Qed.

Lemma do_while_eintr_unfold fuel call w :
  do_while_eintr os (S fuel) call w =
  if interrupted os call w
  then do_while_eintr os fuel call (snd (call w))
  else Some (call w).
Proof.
  unfold interrupted. simpl. destruct (call w) as [ret w']. reflexivity.
Qed.

(** Whatever the loop returns is the outcome of the first call that was
    not interrupted. *)
Lemma do_while_eintr_returns fuel call : forall w r w',
  do_while_eintr os fuel call w = Some (r, w') ->
  exists k, (k < fuel)%nat
    /\ (forall j, (j < k)%nat -> interrupted os call (after_calls os call j w) = true)
    /\ interrupted os call (after_calls os call k w) = false
    /\ call (after_calls os call k w) = (r, w').
Proof.
  induction fuel as [|fuel IH]; intros w r w' H.
  - discriminate.
  - rewrite do_while_eintr_unfold in H.
    destruct (interrupted os call w) eqn:Hi.
    + destruct (IH _ _ _ H) as (k & Hk & Hbefore & Hat & Hcall).
      exists (S k). split; [lia|]. split; [|split]; simpl; try assumption.
      intros [|j] Hj; simpl; [exact Hi | apply Hbefore; lia].
    + exists 0%nat. split; [lia|]. split; [|split]; simpl.
      * intros j Hj. lia.
      * exact Hi.
      * congruence.
Qed.

(** If the call stops being interrupted after [k] tries, the loop
    returns, and returns that outcome. *)
Lemma do_while_eintr_terminates call : forall k w fuel,
  (forall j, (j < k)%nat -> interrupted os call (after_calls os call j w) = true) ->
  interrupted os call (after_calls os call k w) = false ->
  (k < fuel)%nat ->
  do_while_eintr os fuel call w = Some (call (after_calls os call k w)).
Proof.
  induction k as [|k IH]; intros w fuel Hbefore Hat Hfuel;
    (destruct fuel as [|fuel]; [lia|]); rewrite do_while_eintr_unfold.
  - simpl in Hat. rewrite Hat. reflexivity.
  - pose proof (Hbefore 0%nat ltac:(lia)) as H0. simpl in H0.
    rewrite H0. simpl.
    apply IH; [|exact Hat|lia].
    intros j Hj. apply (Hbefore (S j)). lia.
Qed.

Lemma do_while_eintr_reissues call :
  reissues_on_EINTR os (fun fuel => do_while_eintr os fuel call) call.
Proof.
  split.
  - intros fuel w r w' H.
    destruct (do_while_eintr_returns _ _ _ _ _ H) as (k & Hk & Hbefore & Hat & Hcall).
    split.
    + intros Hint. apply not_true_iff_false in Hat. apply Hat.
      apply interrupted_spec. rewrite Hcall. exact Hint.
    + exists k. auto.
  - intros k w fuel. apply do_while_eintr_terminates.
Qed.

(** C8: each of the four wrappers returns only an outcome that is not a
    failure with [EINTR], namely the outcome of the first call that was
    not interrupted, every earlier call having been interrupted and
    reissued; and when the call stops being interrupted after [k]
    tries, the wrapper does return (any bound above [k] on the number
    of tries is enough). *)
Theorem native_wrappers_retry_on_EINTR :
  (forall fd buf count,
      reissues_on_EINTR os (fun fuel => native_read os fuel fd buf count)
        (sys_read os fd buf count))
  /\ (forall fd buf count,
      reissues_on_EINTR os (fun fuel => native_write os fuel fd buf count)
        (sys_write os fd buf count))
  /\ (forall nfds readfds writefds exceptfds timeout,
      reissues_on_EINTR os
        (fun fuel => native_select os fuel nfds readfds writefds exceptfds timeout)
        (sys_select os nfds readfds writefds exceptfds timeout))
  /\ (forall pid status options,
      reissues_on_EINTR os (fun fuel => native_waitpid os fuel pid status options)
        (sys_waitpid os pid status options)).
Proof.
  split; [|split; [|split]]; intros; apply do_while_eintr_reissues.
Qed.

End RetryOnEINTR.

(** Two reads interrupted, the third returns 7 bytes: the wrapper returns
    7, and [errno] still holds the [EINTR] of the second try. *)
Lemma native_wrappers_retry_on_EINTR_witness :
  DebuggerCoreUNIX.native_read DebuggerCoreUNIX.scripted_os 5 3 0 16
    ([(-1, 4); (-1, 4); (7, 0)], 0)
  = Some (7, ([], 4)).
Proof.
  destruct (native_wrappers_retry_on_EINTR DebuggerCoreUNIX.scripted_os)
    as [Hread _].
  destruct (Hread 3 0 16) as [_ Hreturns].
  apply (Hreturns 2%nat ([(-1, 4); (-1, 4); (7, 0)], 0) 5%nat).
  - intros [|[|j]] Hj; [reflexivity | reflexivity | lia].
  - reflexivity.
  - lia.
Defined.

(** ** The backward boundary search *)

Section BackwardSearch.
Import QDisassemblyView.
Context (decode : list byte -> Instruction).
Context (buf : list byte) (bufSize curInstOffset : nat).

Lemma stage1_step (offs finalSize : nat) :
  stage1 decode buf curInstOffset (S offs) finalSize =
  stage1 decode buf curInstOffset offs
    (if ends_at_current decode buf curInstOffset offs
     then byte_size (decode (window buf offs curInstOffset))
     else finalSize).
Proof. reflexivity. Qed.

(** A candidate's length is the distance to the current instruction. *)
Lemma candidate_length (offs : nat) :
  ends_at_current decode buf curInstOffset offs = true ->
  byte_size (decode (window buf offs curInstOffset)) = (curInstOffset - offs)%nat.
Proof.
  unfold ends_at_current. intros H.
  apply andb_true_iff in H as [_ H]. apply Nat.eqb_eq in H. lia.
Qed.

(** Without a ends_at_current decode buf curInstOffset below [n] the loop leaves [finalSize] alone. *)
Lemma stage1_no_candidate (n finalSize : nat) :
  (forall o, (o < n)%nat -> ends_at_current decode buf curInstOffset o = false) ->
  stage1 decode buf curInstOffset n finalSize = finalSize.
Proof.
  revert finalSize. induction n as [|offs IH]; intros finalSize Hnone.
  - reflexivity.
  - rewrite stage1_step, (Hnone offs) by lia. apply IH.
    intros o Ho. apply Hnone. lia.
Qed.

(** The loop ends with the length of the lowest candidate: it is the last
    one the descending scan assigns. *)
Lemma stage1_lowest_candidate (n finalSize m : nat) :
  (m < n)%nat -> ends_at_current decode buf curInstOffset m = true ->
  (forall o, (o < m)%nat -> ends_at_current decode buf curInstOffset o = false) ->
  stage1 decode buf curInstOffset n finalSize = (curInstOffset - m)%nat.
Proof.
  revert finalSize. induction n as [|offs IH]; intros finalSize Hm Hc Hlow.
  - lia.
  - rewrite stage1_step.
    destruct (decide (offs = m)) as [->|Hne].
    + rewrite Hc, stage1_no_candidate by exact Hlow.
      apply candidate_length, Hc.
    + apply IH; [lia | exact Hc | exact Hlow].
Qed.

(** Below [n] there is no candidate, or there is a lowest one. *)
Lemma lowest_candidate_or_none (n : nat) :
  (forall o, (o < n)%nat -> ends_at_current decode buf curInstOffset o = false)
  \/ exists m, (m < n)%nat /\ ends_at_current decode buf curInstOffset m = true
       /\ forall o, (o < m)%nat -> ends_at_current decode buf curInstOffset o = false.
Proof.
  induction n as [|n [Hnone|(m & Hm & Hc & Hlow)]].
  - left. intros o Ho. lia.
  - destruct (ends_at_current decode buf curInstOffset n) eqn:Hn.
    + right. exists n. split; [lia|]. split; assumption.
    + left. intros o Ho. destruct (decide (o = n)) as [->|Hne];
        [exact Hn | apply Hnone; lia].
  - right. exists m. split; [lia|]. split; assumption.
Qed.

Lemma lowest_candidate_exists (n : nat) :
  (exists o, (o < n)%nat /\ ends_at_current decode buf curInstOffset o = true) ->
  exists m, (m < n)%nat /\ ends_at_current decode buf curInstOffset m = true
    /\ forall o, (o < m)%nat -> ends_at_current decode buf curInstOffset o = false.
Proof.
  intros (o & Ho & Hc).
  destruct (lowest_candidate_or_none n) as [Hnone|Hlow]; [|exact Hlow].
  rewrite Hnone in Hc by exact Ho. discriminate.
Qed.

Lemma stage1_le (n finalSize : nat) :
  (finalSize <= curInstOffset)%nat ->
  (stage1 decode buf curInstOffset n finalSize <= curInstOffset)%nat.
Proof.
  revert finalSize. induction n as [|offs IH]; intros finalSize Hle.
  - exact Hle.
  - rewrite stage1_step. apply IH.
    destruct (ends_at_current decode buf curInstOffset offs) eqn:Hc; [|exact Hle].
    rewrite (candidate_length _ Hc). lia.
Qed.

Lemma stage2_le (orig : Instruction) (n finalSize : nat) :
  (finalSize <= curInstOffset)%nat ->
  (stage2 decode buf bufSize curInstOffset orig n finalSize <= curInstOffset)%nat.
Proof.
  revert finalSize. induction n as [|offs IH]; intros finalSize Hle; simpl.
  - exact Hle.
  - destruct (negb (valid (decode (window buf offs curInstOffset)))).
    + apply IH, Hle.
    + apply IH. destruct (_ && _); lia.
Qed.

Lemma stage3_le (n : nat) :
  (stage3 decode buf bufSize curInstOffset n <= curInstOffset)%nat.
Proof.
  induction n as [|offs IH]; simpl.
  - lia.
  - destruct (negb (valid (decode (window buf offs bufSize)))); [lia | exact IH].
Qed.

(** C1: when some start offset before the current instruction decodes to
    a valid instruction ending exactly at the current offset, stage 1
    settles the result: the search returns the current offset minus the
    lowest such start offset, which is the length of the instruction
    decoded there and the largest length among all such offsets. *)
Theorem length_disasm_back_longest_ending_here :
  (curInstOffset <= length buf)%nat ->
  (exists o, (o < curInstOffset)%nat /\ ends_at_current decode buf curInstOffset o = true) ->
  exists m, (m < curInstOffset)%nat
    /\ ends_at_current decode buf curInstOffset m = true
    /\ (forall o, (o < curInstOffset)%nat -> ends_at_current decode buf curInstOffset o = true ->
          (m <= o)%nat
          /\ (byte_size (decode (window buf o curInstOffset))
              <= length_disasm_back decode buf bufSize curInstOffset)%nat)
    /\ stage1 decode buf curInstOffset curInstOffset 0 = (curInstOffset - m)%nat
    /\ length_disasm_back decode buf bufSize curInstOffset = (curInstOffset - m)%nat
    /\ byte_size (decode (window buf m curInstOffset)) = (curInstOffset - m)%nat.
Proof.
  intros _ Hex.
  destruct (lowest_candidate_exists _ Hex) as (m & Hm & Hc & Hlow).
  assert (Hs1 : stage1 decode buf curInstOffset curInstOffset 0
                = (curInstOffset - m)%nat)
    by (apply stage1_lowest_candidate; assumption).
  assert (Hres : length_disasm_back decode buf bufSize curInstOffset
                 = (curInstOffset - m)%nat).
  { unfold length_disasm_back. rewrite Hs1.
    destruct (Nat.eqb_spec (curInstOffset - m) 0); [lia | reflexivity]. }
  assert (Hleast : forall o, ends_at_current decode buf curInstOffset o = true -> (m <= o)%nat).
  { intros o Ho. destruct (decide (m <= o)%nat); [assumption|].
    rewrite Hlow in Ho by lia. discriminate. }
  exists m. repeat split; try assumption.
  - apply Hleast. assumption.
  - rewrite Hres, candidate_length by assumption.
    assert (m <= o)%nat by (apply Hleast; assumption). lia.
  - apply candidate_length, Hc.
Qed.

(** C9: the delta the search returns is at most the current offset (and,
    being a [size_t], at least 0), whichever stage produces it. *)
Theorem length_disasm_back_within_buffer :
  (0 <= length_disasm_back decode buf bufSize curInstOffset <= curInstOffset)%nat.
Proof.
  split; [lia|]. unfold length_disasm_back.
  destruct (negb (_ =? 0)%nat); [apply stage1_le; lia|].
  destruct (negb (_ =? 0)%nat); [apply stage2_le, stage1_le; lia|].
  apply stage3_le.
Qed.

End BackwardSearch.

(** In [66 90 90] with the current instruction at offset 2, both [90] at
    offset 1 and [66 90] at offset 0 end at offset 2; the search returns
    the longer one. *)
Lemma length_disasm_back_longest_ending_here_witness :
  QDisassemblyView.length_disasm_back QDisassemblyView.sample_decode
    [x66; x90; x90] 3 2 = 2%nat
  /\ exists m, (m < 2)%nat
    /\ QDisassemblyView.length_disasm_back QDisassemblyView.sample_decode
         [x66; x90; x90] 3 2 = (2 - m)%nat.
Proof.
  split; [reflexivity|].
  destruct (length_disasm_back_longest_ending_here
              QDisassemblyView.sample_decode [x66; x90; x90] 3 2)
    as (m & Hm & _ & _ & _ & Hres & _).
  - simpl. lia.
  - exists 1%nat. split; [lia | reflexivity].
  - exists m. split; assumption.
Defined.

(** ** Wrap-around *)

Lemma wrap64_add_l (a b : Z) : wrap64 (wrap64 a + b) = wrap64 (a + b).
Proof. unfold wrap64. apply Zplus_mod_idemp_l. Qed.

Lemma wrap64_small (a : Z) : 0 <= a < 2 ^ 64 -> wrap64 a = a.
Proof. unfold wrap64. apply Z.mod_small. Qed.

(** ** The x86 processor *)

Section X86Processor.
Import X86.
Context (ext : Externals).

(** No segment override: the address is final and [ok] is set. *)
Lemma add_segment_bases_no_override (op : Operand) (state : State) (ret : Z) :
  Z.land (prefix (owner op)) (PREFIX_GS ext) = 0 ->
  Z.land (prefix (owner op)) (PREFIX_FS ext) = 0 ->
  add_segment_bases ext op state ret = (ret, true).
Proof.
  intros Hgs Hfs. unfold add_segment_bases. rewrite Hgs, Hfs. reflexivity.
Qed.

(** [ok] stays false exactly when an overriding segment's base is not in
    the state. *)
Lemma add_segment_bases_fails_iff (op : Operand) (state : State) (ret : Z) :
  snd (add_segment_bases ext op state ret) = false <->
  (Z.land (prefix (owner op)) (PREFIX_GS ext) <> 0
   /\ reg_valid (by_name state "gs_base") = false)
  \/ (Z.land (prefix (owner op)) (PREFIX_FS ext) <> 0
      /\ reg_valid (by_name state "fs_base") = false).
Proof.
  unfold add_segment_bases.
  destruct (Z.eqb_spec (Z.land (prefix (owner op)) (PREFIX_GS ext)) 0) as [Hgs|Hgs];
  destruct (Z.eqb_spec (Z.land (prefix (owner op)) (PREFIX_FS ext)) 0) as [Hfs|Hfs];
  destruct (reg_valid (by_name state "gs_base"));
  destruct (reg_valid (by_name state "fs_base")); simpl;
  split; intros H; try discriminate; try reflexivity; try tauto;
  try (right; split; [assumption | reflexivity]);
  try (left; split; [assumption | reflexivity]);
  destruct H as [[? ?]|[? ?]]; congruence.
Qed.

Lemma get_effective_address_expression (op : Operand) (state : State)
    (e : Expression) :
  data op = TYPE_EXPRESSION e ->
  get_effective_address ext op state =
  add_segment_bases ext op state
    (wrap64
       ((if base e =? X86_REG_RIP
         then wrap64 ((if reg_valid (by_name state (register_name ext (base e)))
                       then valueAsAddress (by_name state (register_name ext (base e)))
                       else 0) + size (owner op))
         else if reg_valid (by_name state (register_name ext (base e)))
              then valueAsAddress (by_name state (register_name ext (base e)))
              else 0)
        + (if reg_valid (by_name state (register_name ext (index e)))
           then valueAsAddress (by_name state (register_name ext (index e)))
           else 0) * scale e
        + displacement e)).
Proof.
  intros Hd. unfold get_effective_address. rewrite Hd. reflexivity.
Qed.

End X86Processor.

(** C3: for a memory expression whose base is [rip], in a state that has
    [rip] and with no segment override, the address is the value of [rip]
    plus the size of the owning instruction, plus index times scale, plus
    the displacement (modulo 2^64), and [ok] is set; with [rip] = [0x1000],
    a four-byte instruction and the operand [[rip+0x10]] it is [0x1014]. *)
Theorem x86_rip_relative_effective_address :
  (forall (ext : X86.Externals) (op : X86.Operand) (state : State)
          (e : X86.Expression),
      X86.data op = X86.TYPE_EXPRESSION e ->
      X86.base e = X86.X86_REG_RIP ->
      reg_valid (by_name state (X86.register_name ext (X86.base e))) = true ->
      Z.land (X86.prefix (X86.owner op)) (X86.PREFIX_GS ext) = 0 ->
      Z.land (X86.prefix (X86.owner op)) (X86.PREFIX_FS ext) = 0 ->
      X86.get_effective_address ext op state =
      (wrap64
         (valueAsAddress (by_name state (X86.register_name ext (X86.base e)))
          + X86.size (X86.owner op)
          + (if reg_valid (by_name state (X86.register_name ext (X86.index e)))
             then valueAsAddress (by_name state (X86.register_name ext (X86.index e)))
             else 0) * X86.scale e
          + X86.displacement e),
       true))
  /\ X86.get_effective_address X86.sample_externals (X86.mem_plus_0x10 X86.X86_REG_RIP)
       (state_of {[ "rip"%string := 0x1000 ]} [] None)
     = (0x1014, true).
Proof.
  split; [|vm_compute; reflexivity].
  intros ext op state e Hd Hrip Hvalid Hgs Hfs.
  rewrite (get_effective_address_expression ext op state e Hd).
  rewrite add_segment_bases_no_override by assumption.
  rewrite Hvalid, Hrip, Z.eqb_refl. f_equal.
  rewrite <- (Z.add_assoc (wrap64 _)), wrap64_add_l. f_equal. lia.
Qed.

Lemma x86_rip_relative_effective_address_witness :
  X86.get_effective_address X86.sample_externals (X86.mem_plus_0x10 X86.X86_REG_RIP)
    (state_of {[ "rip"%string := 0x1000 ]} [] None)
  = (wrap64 (0x1000 + 4 + 0 * 1 + 0x10), true).
Proof.
  destruct x86_rip_relative_effective_address as [Hgeneral _].
  exact (Hgeneral X86.sample_externals (X86.mem_plus_0x10 X86.X86_REG_RIP)
           (state_of {[ "rip"%string := 0x1000 ]} [] None)
           _ eq_refl eq_refl eq_refl eq_refl eq_refl).
Defined.

(** C5: a valid [nop] is filling; a valid [mov] between two register
    operands naming the same register is filling; a valid [lea] of a
    register from a memory expression with scale 1 and displacement 0
    whose only register (base without index, or index without base) is
    that same register is filling. *)
Theorem x86_is_filling_nop_mov_lea (ext : X86.Externals) (inst : X86.Instruction) :
  X86.insn_valid inst = true ->
  (X86.operation inst = X86.X86_INS_NOP -> X86.is_filling ext inst = true)
  /\ (forall r,
        X86.operation inst = X86.X86_INS_MOV ->
        X86.data (X86.operand_at inst 0) = X86.TYPE_REGISTER r ->
        X86.data (X86.operand_at inst 1) = X86.TYPE_REGISTER r ->
        X86.is_filling ext inst = true)
  /\ (forall r e,
        X86.operation inst = X86.X86_INS_LEA ->
        X86.data (X86.operand_at inst 0) = X86.TYPE_REGISTER r ->
        X86.data (X86.operand_at inst 1) = X86.TYPE_EXPRESSION e ->
        X86.scale e = 1 ->
        X86.displacement e = 0 ->
        (X86.base e = r /\ X86.index e = X86.X86_REG_INVALID)
        \/ (X86.base e = X86.X86_REG_INVALID /\ X86.index e = r) ->
        X86.is_filling ext inst = true).
Proof.
  intros Hvalid. unfold X86.is_filling. rewrite Hvalid.
  split; [|split].
  - intros ->. reflexivity.
  - intros r -> -> ->. rewrite Z.eqb_refl. reflexivity.
  - intros r e -> -> -> -> -> Hregs. simpl.
    destruct Hregs as [[Hb Hi]|[Hb Hi]].
    + rewrite Hi, Z.eqb_refl.
      destruct (Z.eqb_spec (X86.base e) X86.X86_REG_INVALID) as [Hinv|_].
      * assert ((r =? X86.X86_REG_INVALID) = true) as -> by (apply Z.eqb_eq; congruence).
        reflexivity.
      * assert ((r =? X86.base e) = true) as -> by (apply Z.eqb_eq; congruence).
        reflexivity.
    + rewrite Hb, Z.eqb_refl.
      assert ((r =? X86.index e) = true) as -> by (apply Z.eqb_eq; congruence).
      reflexivity.
Qed.

(** [nop], [mov eax, eax] and [lea eax, [eax]] are filling. *)
Lemma x86_is_filling_nop_mov_lea_witness :
  X86.is_filling X86.sample_externals X86.nop = true
  /\ X86.is_filling X86.sample_externals X86.mov_eax_eax = true
  /\ X86.is_filling X86.sample_externals X86.lea_eax_eax = true.
Proof.
  split; [|split].
  - exact (proj1 (x86_is_filling_nop_mov_lea X86.sample_externals X86.nop eq_refl)
             eq_refl).
  - exact (proj1 (proj2 (x86_is_filling_nop_mov_lea X86.sample_externals
                           X86.mov_eax_eax eq_refl))
             19 eq_refl eq_refl eq_refl).
  - exact (proj2 (proj2 (x86_is_filling_nop_mov_lea X86.sample_externals
                           X86.lea_eax_eax eq_refl))
             19 _ eq_refl eq_refl eq_refl eq_refl eq_refl
             (or_introl (conj eq_refl eq_refl))).
Defined.

(** ** The ARM processor *)

Section ARMProcessor.
Import ARM.



(** A register operand whose register the state does not have fails. *)
Lemma get_effective_address_register_unresolved
    (cpuMode : CPUMode) (insn : Instruction) (operand : Operand)
    (state : State) (r : arm_reg) :
  data operand = ARM_OP_REG r ->
  snd (capstoneRegToGPRIndex r) = false
  \/ reg_valid (gp_register state (fst (capstoneRegToGPRIndex r))) = false ->
  exists e, get_effective_address cpuMode insn operand state = Some (Failed e).
Proof.
  intros Hd Hun. unfold get_effective_address. rewrite Hd.
  destruct (negb (op_valid operand) || negb (insn_valid insn)); [eauto|].
  destruct (capstoneRegToGPRIndex r) as [regIndex ok]; simpl in Hun.
  destruct ok; simpl; [|eauto].
  destruct Hun as [Hun|Hun]; [discriminate|].
  rewrite Hun. simpl. eauto.
Qed.

(** A memory operand whose base register the state does not have fails. *)
Lemma get_effective_address_base_unresolved
    (cpuMode : CPUMode) (insn : Instruction) (operand : Operand)
    (state : State) (m : arm_op_mem) :
  data operand = ARM_OP_MEM m ->
  snd (capstoneRegToGPRIndex (base m)) = false
  \/ reg_valid (gp_register state (fst (capstoneRegToGPRIndex (base m)))) = false ->
  exists e, get_effective_address cpuMode insn operand state = Some (Failed e).
Proof.
  intros Hd Hun. unfold get_effective_address. rewrite Hd.
  destruct (negb (op_valid operand) || negb (insn_valid insn)); [eauto|].
  destruct (capstoneRegToGPRIndex (base m)) as [baseIndex ok]; simpl in Hun.
  destruct ok; simpl; [|eauto].
  destruct Hun as [Hun|Hun]; [discriminate|].
  rewrite Hun. simpl. eauto.
Qed.

End ARMProcessor.




(** C10: for every flags value and every even condition code from 0 to
    14, the code with the low bit set is taken exactly when the even one
    is not; 14 (always) is taken and 15 (never) is not, whatever the
    flags. *)
Theorem arm_is_jcc_taken_negation (cpsr : Z) :
  (forall cond, In cond [0; 2; 4; 6; 8; 10; 12; 14] ->
     ARM.is_jcc_taken cpsr (cond + 1) = negb (ARM.is_jcc_taken cpsr cond))
  /\ ARM.is_jcc_taken cpsr 0xF = false
  /\ ARM.is_jcc_taken cpsr 0xE = true.
Proof.
  split; [|split; reflexivity].
  intros cond Hcond. simpl in Hcond.
  repeat (destruct Hcond as [<-|Hcond]; [reflexivity|]).
  contradiction.
Qed.

Lemma arm_is_jcc_taken_negation_witness :
  In 0 [0; 2; 4; 6; 8; 10; 12; 14]
  /\ ARM.is_jcc_taken 0x40000000 0 = true
  /\ ARM.is_jcc_taken 0x40000000 (0 + 1) = negb (ARM.is_jcc_taken 0x40000000 0).
Proof.
  assert (H : In 0 [0; 2; 4; 6; 8; 10; 12; 14]) by (left; reflexivity).
  split; [exact H|]. split; [reflexivity|].
  exact (proj1 (arm_is_jcc_taken_negation 0x40000000) 0 H).
Defined.

(** ** Registers the state cannot resolve *)

(** C2, counterexample: on x86 the operand [[rax+0x10]] in a state
    without any register gets the address [0x10], the base counting as
    0, and [ok] is set: the unresolved base register is not reported. *)
Lemma x86_unresolved_base_is_not_reported :
  ~ (reg_valid (by_name (state_of ∅ [] None)
                  (X86.register_name X86.sample_externals 35)) = false ->
     snd (X86.get_effective_address X86.sample_externals (X86.mem_plus_0x10 35)
            (state_of ∅ [] None)) = false)
  /\ X86.get_effective_address X86.sample_externals (X86.mem_plus_0x10 35)
       (state_of ∅ [] None) = (0x10, true).
Proof.
  split; [|vm_compute; reflexivity].
  intros H. specialize (H eq_refl). vm_compute in H. discriminate.
Qed.

(** C2, amended: on ARM a register operand whose register, and a memory
    operand whose base register, is not a general purpose register or is
    not in the state makes the computation fail.  On x86 a memory
    expression whose base register is not in the state is computed with
    0 for the base; [ok] stays false exactly when a GS or FS override
    needs a segment base the state does not have, and without such an
    override the address is returned with [ok] set. *)
Theorem effective_address_unresolved_register :
  (forall (cpuMode : ARM.CPUMode) (insn : ARM.Instruction)
          (operand : ARM.Operand) (state : State),
      (forall r,
          ARM.data operand = ARM.ARM_OP_REG r ->
          snd (ARM.capstoneRegToGPRIndex r) = false
          \/ reg_valid (gp_register state (fst (ARM.capstoneRegToGPRIndex r))) = false ->
          exists e,
            ARM.get_effective_address cpuMode insn operand state = Some (Failed e))
      /\ (forall m,
          ARM.data operand = ARM.ARM_OP_MEM m ->
          snd (ARM.capstoneRegToGPRIndex (ARM.base m)) = false
          \/ reg_valid (gp_register state
                          (fst (ARM.capstoneRegToGPRIndex (ARM.base m)))) = false ->
          exists e,
            ARM.get_effective_address cpuMode insn operand state = Some (Failed e)))
  /\ (forall (ext : X86.Externals) (op : X86.Operand) (state : State)
             (e : X86.Expression),
      X86.data op = X86.TYPE_EXPRESSION e ->
      reg_valid (by_name state (X86.register_name ext (X86.base e))) = false ->
      (snd (X86.get_effective_address ext op state) = false <->
       (Z.land (X86.prefix (X86.owner op)) (X86.PREFIX_GS ext) <> 0
        /\ reg_valid (by_name state "gs_base") = false)
       \/ (Z.land (X86.prefix (X86.owner op)) (X86.PREFIX_FS ext) <> 0
           /\ reg_valid (by_name state "fs_base") = false))
      /\ (Z.land (X86.prefix (X86.owner op)) (X86.PREFIX_GS ext) = 0 ->
          Z.land (X86.prefix (X86.owner op)) (X86.PREFIX_FS ext) = 0 ->
          X86.get_effective_address ext op state =
          (wrap64
             ((if X86.base e =? X86.X86_REG_RIP
               then wrap64 (0 + X86.size (X86.owner op)) else 0)
              + (if reg_valid (by_name state (X86.register_name ext (X86.index e)))
                 then valueAsAddress
                        (by_name state (X86.register_name ext (X86.index e)))
                 else 0) * X86.scale e
              + X86.displacement e),
           true))).
Proof.
  split.
  - intros cpuMode insn operand state. split.
    + intros r. apply get_effective_address_register_unresolved.
    + intros m. apply get_effective_address_base_unresolved.
  - intros ext op state e Hd Hbase.
    rewrite (get_effective_address_expression ext op state e Hd), Hbase.
    split.
    + apply add_segment_bases_fails_iff.
    + intros Hgs Hfs. apply add_segment_bases_no_override; assumption.
Qed.

(** On ARM the operand [r0], and the operand [[pc]], in a state without
    any register fail; on x86 [[rax+0x10]] in such a state is [0x10]. *)
Lemma effective_address_unresolved_register_witness :
  (exists e,
      ARM.get_effective_address ARM.ARM32 ARM.insn_at_0x2000 ARM.reg_r0
        (state_of ∅ [] None) = Some (Failed e))
  /\ (exists e,
      ARM.get_effective_address ARM.ARM32 ARM.insn_at_0x2000 ARM.mem_pc
        (state_of ∅ [] None) = Some (Failed e))
  /\ X86.get_effective_address X86.sample_externals (X86.mem_plus_0x10 35)
       (state_of ∅ [] None)
     = (wrap64 (0 + 0 * 1 + 0x10), true).
Proof.
  destruct effective_address_unresolved_register as [Harm Hx86].
  split; [|split].
  - exact (proj1 (Harm ARM.ARM32 ARM.insn_at_0x2000 ARM.reg_r0 (state_of ∅ [] None))
             ARM.ARM_REG_R0 eq_refl (or_intror eq_refl)).
  - exact (proj2 (Harm ARM.ARM32 ARM.insn_at_0x2000 ARM.mem_pc (state_of ∅ [] None))
             _ eq_refl (or_intror eq_refl)).
  - exact (proj2 (Hx86 X86.sample_externals (X86.mem_plus_0x10 35)
                    (state_of ∅ [] None) _ eq_refl eq_refl)
             eq_refl eq_refl).
Defined.

(** * Further properties *)

(** ** The signal catalog, both ways and as a map *)

Section SignalCatalogMore.
Import DebuggerCoreUNIX.

Lemma ifdef_defined (p : gmap string Z) (n : string) (v : Z) :
  p !! n = Some v -> ifdef p n = [ {| value := v; name := n |} ].
Proof. intros H. unfold ifdef. rewrite H. reflexivity. Qed.

Lemma catalog_entry_from (p : gmap string Z) (l : list string) (n : string) (v : Z) :
  n ∈ l -> p !! n = Some v ->
  {| value := v; name := n |} ∈ flat_map (ifdef p) l.
Proof.
  induction l as [|m l IH]; intros Hin Hp; simpl.
  - inversion Hin.
  - apply elem_of_app. apply elem_of_cons in Hin as [->|Hin].
    + left. rewrite (ifdef_defined _ _ _ Hp). left.
    + right. auto.
Qed.

Lemma catalog_entry_defined (p : gmap string Z) (l : list string) (e : Exception) :
  e ∈ flat_map (ifdef p) l -> name e ∈ l /\ p !! name e = Some (value e).
Proof.
  induction l as [|m l IH]; simpl; intros H.
  - inversion H.
  - apply elem_of_app in H as [H|H].
    + unfold ifdef in H. destruct (p !! m) as [v|] eqn:Hm.
      * apply list_elem_of_singleton in H. subst e. simpl.
        split; [left | exact Hm].
      * inversion H.
    + destruct (IH H) as [Hin Hp]. split; [right; exact Hin | exact Hp].
Qed.

(** With distinct names, the value found for the name of an entry is the
    value of that entry. *)
Lemma lookup_value_entry (es : list Exception) (e : Exception) :
  NoDup (name <$> es) -> e ∈ es -> lookup_value es (name e) = value e.
Proof.
  induction es as [|e' es IH]; simpl; intros Hnd Hin.
  - inversion Hin.
  - apply NoDup_cons in Hnd as [Hfresh Hnd].
    apply elem_of_cons in Hin as [->|Hin].
    + rewrite String.eqb_refl. reflexivity.
    + destruct (String.eqb_spec (name e) (name e')) as [Heq|_].
      * exfalso. apply Hfresh. rewrite <- Heq.
        apply list_elem_of_fmap. exists e. split; [reflexivity | exact Hin].
      * apply IH; assumption.
Qed.

(** X1: the value of a signal name the platform defines is the value the
    platform gives it, and the name found for that value is again a name
    of the table that the platform defines with that value. *)
Theorem exceptionValue_defined (p : gmap string Z) (n : string) (v : Z) :
  n ∈ signal_macros -> p !! n = Some v ->
  exceptionValue p n = v
  /\ exceptionName p v ∈ signal_macros
  /\ p !! exceptionName p v = Some v.
Proof.
  intros Hin Hp.
  pose proof (catalog_entry_from p signal_macros n v Hin Hp) as He.
  split.
  - apply (lookup_value_entry (Exceptions p) {| value := v; name := n |});
      [apply Exceptions_names_NoDup | exact He].
  - assert (Hv : v ∈ value <$> Exceptions p).
    { apply list_elem_of_fmap. exists {| value := v; name := n |}.
      split; [reflexivity | exact He]. }
    pose proof (lookup_name_in (Exceptions p) v Hv) as Hname.
    apply list_elem_of_fmap in Hname as (e & Hne & Hein).
    destruct (catalog_entry_defined p signal_macros e Hein) as [Hmac Hdef].
    unfold exceptionName. rewrite Hne. split; [exact Hmac|].
    rewrite Hdef. f_equal.
    rewrite <- (lookup_value_entry (Exceptions p) e
                  (Exceptions_names_NoDup p) Hein).
    rewrite <- Hne. apply lookup_value_name;
      [apply Exceptions_names_NoDup | exact Hv].
Qed.

Lemma exceptionValue_defined_witness :
  exceptionValue linux_x86 "SIGSEGV" = 11
  /\ exceptionName linux_x86 11 ∈ signal_macros
  /\ linux_x86 !! exceptionName linux_x86 11 = Some 11.
Proof.
  apply (exceptionValue_defined linux_x86 "SIGSEGV" 11).
  - apply (bool_decide_unpack _). vm_compute. reflexivity.
  - vm_compute. reflexivity.
Defined.



Lemma exceptions_fold_lookup (es : list Exception) (m : gmap Z string) (v : Z) :
  (foldl (fun m e => <[value e := name e]> m) m es !! v = None <->
   m !! v = None /\ v ∉ value <$> es)
  /\ (forall n,
        foldl (fun m e => <[value e := name e]> m) m es !! v = Some n ->
        m !! v = Some n \/ exists e, e ∈ es /\ value e = v /\ name e = n).
Proof.
  revert m. induction es as [|e es IH]; intros m; simpl.
  - split.
    + split; [intros H; split; [exact H | apply not_elem_of_nil] | tauto].
    + auto.
  - destruct (IH (<[value e := name e]> m)) as [IHnone IHsome]. split.
    + rewrite IHnone, not_elem_of_cons, lookup_insert_None.
      intuition congruence.
    + intros n H. apply IHsome in H as [H|(e' & Hin & Hv & Hn)].
      * apply lookup_insert_Some in H as [[Hv Hn]|[_ H]]; [|left; exact H].
        right. exists e. split; [left | split; assumption].
      * right. exists e'. split; [right; exact Hin | split; assumption].
Qed.

(** X3: the map [exceptions()] has exactly the values of the catalog as
    keys, and the name it holds for a value has that value; where two
    names share a value it holds the table's last one, while
    [exceptionName] answers with the first (29 is [SIGIO] in the map and
    [SIGPOLL] by lookup on Linux). *)
Theorem exceptions_map_lookup (p : gmap string Z) (v : Z) :
  (exceptions p !! v = None <-> v ∉ value <$> Exceptions p)
  /\ (forall n, exceptions p !! v = Some n -> exceptionValue p n = v)
  /\ exceptions linux_x86 !! 29 = Some "SIGIO"%string
  /\ exceptionName linux_x86 29 = "SIGPOLL"%string.
Proof.
  destruct (exceptions_fold_lookup (Exceptions p) ∅ v) as [Hnone Hsome].
  split; [|split; [|split; vm_compute; reflexivity]].
  - unfold exceptions. rewrite Hnone, lookup_empty. tauto.
  - intros n H. apply Hsome in H as [H|(e & Hin & Hv & Hn)].
    + rewrite lookup_empty in H. discriminate.
    + subst. apply lookup_value_entry;
        [apply Exceptions_names_NoDup | exact Hin].
Qed.

Lemma exceptions_map_lookup_witness :
  exceptions linux_x86 !! 11 = Some "SIGSEGV"%string
  /\ exceptionValue linux_x86 "SIGSEGV" = 11.
Proof.
  split; [vm_compute; reflexivity|].
  exact (proj1 (proj2 (exceptions_map_lookup linux_x86 11)) _ eq_refl).
Defined.

End SignalCatalogMore.

(** ** The timeout of [select_ex] *)

(** X4: for a nonzero [quint64] number of milliseconds, [select_ex]
    issues [native::select] with a timeout of the same duration, its
    microseconds below one second and its seconds within a [time_t]; for
    0 milliseconds it passes the null pointer. *)
Theorem select_ex_timeout (os : DebuggerCoreUNIX.OS) (fuel : nat)
    (local_tv : DebuggerCoreUNIX.timeval ->
                DebuggerCoreUNIX.World os -> Z * DebuggerCoreUNIX.World os)
    (nfds readfds writefds exceptfds : Z) (w : DebuggerCoreUNIX.World os) :
  (forall msecs, 0 < msecs < 2 ^ 64 ->
     exists tv,
       DebuggerCoreUNIX.select_ex os fuel local_tv nfds readfds writefds exceptfds msecs w
       = DebuggerCoreUNIX.native_select os fuel nfds readfds writefds exceptfds
           (fst (local_tv tv w)) (snd (local_tv tv w))
       /\ DebuggerCoreUNIX.tv_sec tv * 1000000 + DebuggerCoreUNIX.tv_usec tv
          = msecs * 1000
       /\ 0 <= DebuggerCoreUNIX.tv_usec tv < 1000000
       /\ 0 <= DebuggerCoreUNIX.tv_sec tv < 2 ^ 63)
  /\ DebuggerCoreUNIX.select_ex os fuel local_tv nfds readfds writefds exceptfds 0 w
     = DebuggerCoreUNIX.native_select os fuel nfds readfds writefds exceptfds 0 w.
Proof.
  split; [|reflexivity].
  intros msecs Hrange. exists (DebuggerCoreUNIX.timeval_of_msecs msecs).
  split; [|split; [|split]].
  - unfold DebuggerCoreUNIX.select_ex.
    destruct (Z.eqb_spec msecs 0) as [->|_]; [lia|]. simpl.
    destruct (local_tv _ w). reflexivity.
  - simpl. pose proof (Z.div_mod msecs 1000 ltac:(lia)). lia.
  - simpl. pose proof (Z.mod_pos_bound msecs 1000 ltac:(lia)). lia.
  - simpl. split; [apply Z.div_pos; lia|].
    apply Z.div_lt_upper_bound; lia.
Qed.

Lemma select_ex_timeout_witness :
  DebuggerCoreUNIX.timeval_of_msecs 1500
  = {| DebuggerCoreUNIX.tv_sec := 1; DebuggerCoreUNIX.tv_usec := 500000 |}
  /\ exists tv,
       DebuggerCoreUNIX.select_ex DebuggerCoreUNIX.scripted_os 3
         (fun _ w => (1, w)) 1 0 0 0 1500 ([(-1, 4); (1, 0)], 0)
       = DebuggerCoreUNIX.native_select DebuggerCoreUNIX.scripted_os 3 1 0 0 0
           1 ([(-1, 4); (1, 0)], 0)
       /\ DebuggerCoreUNIX.tv_sec tv * 1000000 + DebuggerCoreUNIX.tv_usec tv
          = 1500 * 1000.
Proof.
  split; [reflexivity|].
  destruct (proj1 (select_ex_timeout DebuggerCoreUNIX.scripted_os 3
                     (fun _ w => (1, w)) 1 0 0 0 ([(-1, 4); (1, 0)], 0))
              1500 ltac:(lia)) as (tv & Hsel & Hdur & _).
  exists tv. split; [exact Hsel | exact Hdur].
Defined.

(** ** The later stages of the backward search *)

Section BackwardSearchStages.
Import QDisassemblyView.
Context (decode : list byte -> Instruction).
Context (buf : list byte) (bufSize curInstOffset : nat).

Lemma stage2_step (orig : Instruction) (offs finalSize : nat) :
  orig = decode (window buf curInstOffset bufSize) ->
  stage2 decode buf bufSize curInstOffset orig (S offs) finalSize =
  stage2 decode buf bufSize curInstOffset orig offs
    (if bridges_current decode buf bufSize curInstOffset offs
     then (curInstOffset - offs)%nat else finalSize).
Proof.
  intros ->. unfold bridges_current. simpl.
  destruct (valid (decode (window buf offs curInstOffset))); reflexivity.
Qed.

Lemma stage2_no_candidate (n finalSize : nat) :
  (forall o, (o < n)%nat ->
     bridges_current decode buf bufSize curInstOffset o = false) ->
  stage2 decode buf bufSize curInstOffset
    (decode (window buf curInstOffset bufSize)) n finalSize = finalSize.
Proof.
  revert finalSize. induction n as [|offs IH]; intros finalSize Hnone.
  - reflexivity.
  - rewrite stage2_step, (Hnone offs) by (reflexivity || lia). apply IH.
    intros o Ho. apply Hnone. lia.
Qed.

Lemma stage2_lowest_candidate (n finalSize m : nat) :
  (m < n)%nat ->
  bridges_current decode buf bufSize curInstOffset m = true ->
  (forall o, (o < m)%nat ->
     bridges_current decode buf bufSize curInstOffset o = false) ->
  stage2 decode buf bufSize curInstOffset
    (decode (window buf curInstOffset bufSize)) n finalSize
  = (curInstOffset - m)%nat.
Proof.
  revert finalSize. induction n as [|offs IH]; intros finalSize Hm Hc Hlow.
  - lia.
  - rewrite stage2_step by reflexivity.
    destruct (decide (offs = m)) as [->|Hne].
    + rewrite Hc. apply stage2_no_candidate, Hlow.
    + apply IH; [lia | exact Hc | exact Hlow].
Qed.

Lemma stage3_no_candidate (n : nat) :
  (forall o, (o < n)%nat -> fails_at decode buf bufSize o = false) ->
  stage3 decode buf bufSize curInstOffset n = 0%nat.
Proof.
  induction n as [|offs IH]; intros Hnone; simpl.
  - reflexivity.
  - pose proof (Hnone offs ltac:(lia)) as H. unfold fails_at in H.
    rewrite H. apply IH. intros o Ho. apply Hnone. lia.
Qed.

Lemma stage3_highest_candidate (n m : nat) :
  (m < n)%nat -> fails_at decode buf bufSize m = true ->
  (forall o, (m < o < n)%nat -> fails_at decode buf bufSize o = false) ->
  stage3 decode buf bufSize curInstOffset n = (curInstOffset - m)%nat.
Proof.
  induction n as [|offs IH]; intros Hm Hc Hhigh.
  - lia.
  - simpl. destruct (decide (offs = m)) as [->|Hne].
    + unfold fails_at in Hc. rewrite Hc. reflexivity.
    + pose proof (Hhigh offs ltac:(lia)) as H. unfold fails_at in H.
      rewrite H. apply IH; [lia | exact Hc |].
      intros o Ho. apply Hhigh. lia.
Qed.

Lemma stage1_result_zero :
  (forall o, (o < curInstOffset)%nat ->
     ends_at_current decode buf curInstOffset o = false) ->
  stage1 decode buf curInstOffset curInstOffset 0 = 0%nat.
Proof. apply stage1_no_candidate. Qed.

(** X5: when no instruction before the current offset ends exactly
    there, but some start offset bridges (a valid instruction there and a
    valid one after it that ends where the current instruction ends),
    the search returns the current offset minus the lowest bridging
    offset. *)
Theorem length_disasm_back_stage2 (m : nat) :
  (forall o, (o < curInstOffset)%nat ->
     ends_at_current decode buf curInstOffset o = false) ->
  (m < curInstOffset)%nat ->
  bridges_current decode buf bufSize curInstOffset m = true ->
  (forall o, (o < m)%nat ->
     bridges_current decode buf bufSize curInstOffset o = false) ->
  length_disasm_back decode buf bufSize curInstOffset = (curInstOffset - m)%nat.
Proof.
  intros Hnone Hm Hc Hlow. unfold length_disasm_back.
  rewrite (stage1_result_zero Hnone). simpl.
  rewrite (stage2_lowest_candidate curInstOffset 0 m Hm Hc Hlow).
  destruct (Nat.eqb_spec (curInstOffset - m) 0); [lia | reflexivity].
Qed.

(** X6: when stages 1 and 2 find nothing but decoding fails at some
    offset before the current one, the search returns the distance to
    the nearest such offset. *)
Theorem length_disasm_back_stage3 (m : nat) :
  (forall o, (o < curInstOffset)%nat ->
     ends_at_current decode buf curInstOffset o = false) ->
  (forall o, (o < curInstOffset)%nat ->
     bridges_current decode buf bufSize curInstOffset o = false) ->
  (m < curInstOffset)%nat ->
  fails_at decode buf bufSize m = true ->
  (forall o, (m < o < curInstOffset)%nat -> fails_at decode buf bufSize o = false) ->
  length_disasm_back decode buf bufSize curInstOffset = (curInstOffset - m)%nat.
Proof.
  intros Hnone1 Hnone2 Hm Hc Hhigh. unfold length_disasm_back.
  rewrite (stage1_result_zero Hnone1). simpl.
  rewrite (stage2_no_candidate curInstOffset 0 Hnone2). simpl.
  apply stage3_highest_candidate; assumption.
Qed.

(** Below [n] decoding never fails, or there is a highest offset at which
    it does. *)
Lemma highest_failure_or_none (n : nat) :
  (forall o, (o < n)%nat -> fails_at decode buf bufSize o = false)
  \/ exists m, (m < n)%nat /\ fails_at decode buf bufSize m = true
       /\ forall o, (m < o < n)%nat -> fails_at decode buf bufSize o = false.
Proof.
  induction n as [|n [Hnone|(m & Hm & Hc & Hhigh)]].
  - left. intros o Ho. lia.
  - destruct (fails_at decode buf bufSize n) eqn:Hn.
    + right. exists n. split; [lia|]. split; [exact Hn|]. intros o Ho. lia.
    + left. intros o Ho. destruct (decide (o = n)) as [->|Hne];
        [exact Hn | apply Hnone; lia].
  - destruct (fails_at decode buf bufSize n) eqn:Hn.
    + right. exists n. split; [lia|]. split; [exact Hn|]. intros o Ho. lia.
    + right. exists m. split; [lia|]. split; [exact Hc|].
      intros o Ho. destruct (decide (o = n)) as [->|Hne];
        [exact Hn | apply Hhigh; lia].
Qed.

Lemma lowest_bridge_or_none (n : nat) :
  (forall o, (o < n)%nat ->
     bridges_current decode buf bufSize curInstOffset o = false)
  \/ exists m, (m < n)%nat
       /\ bridges_current decode buf bufSize curInstOffset m = true
       /\ forall o, (o < m)%nat ->
            bridges_current decode buf bufSize curInstOffset o = false.
Proof.
  induction n as [|n [Hnone|(m & Hm & Hc & Hlow)]].
  - left. intros o Ho. lia.
  - destruct (bridges_current decode buf bufSize curInstOffset n) eqn:Hn.
    + right. exists n. split; [lia|]. split; assumption.
    + left. intros o Ho. destruct (decide (o = n)) as [->|Hne];
        [exact Hn | apply Hnone; lia].
  - right. exists m. split; [lia|]. split; assumption.
Qed.

(** X7: the search returns 0 exactly when no start offset before the
    current one is a candidate of any stage: none ends at the current
    offset, none bridges, and decoding fails at none.  In particular it
    returns 0 at offset 0. *)
Theorem length_disasm_back_zero_iff :
  length_disasm_back decode buf bufSize curInstOffset = 0%nat <->
  forall o, (o < curInstOffset)%nat ->
    ends_at_current decode buf curInstOffset o = false
    /\ bridges_current decode buf bufSize curInstOffset o = false
    /\ fails_at decode buf bufSize o = false.
Proof.
  split.
  - intros Hzero.
    destruct (lowest_candidate_or_none decode buf curInstOffset curInstOffset)
      as [Hnone1|(m & Hm & Hc & Hlow)].
    2:{ assert (Hex : exists o, (o < curInstOffset)%nat
                       /\ ends_at_current decode buf curInstOffset o = true)
          by (exists m; split; assumption).
        unfold length_disasm_back in Hzero.
        rewrite (stage1_lowest_candidate decode buf curInstOffset
                   curInstOffset 0 m Hm Hc Hlow) in Hzero.
        destruct (Nat.eqb_spec (curInstOffset - m) 0); simpl in Hzero; lia. }
    destruct (lowest_bridge_or_none curInstOffset)
      as [Hnone2|(m & Hm & Hc & Hlow)].
    2:{ rewrite (length_disasm_back_stage2 m Hnone1 Hm Hc Hlow) in Hzero. lia. }
    destruct (highest_failure_or_none curInstOffset)
      as [Hnone3|(m & Hm & Hc & Hhigh)].
    2:{ rewrite (length_disasm_back_stage3 m Hnone1 Hnone2 Hm Hc Hhigh) in Hzero.
        lia. }
    intros o Ho. auto.
  - intros Hnone. unfold length_disasm_back.
    rewrite stage1_result_zero by (intros o Ho; apply Hnone, Ho). simpl.
    rewrite stage2_no_candidate by (intros o Ho; apply Hnone, Ho). simpl.
    apply stage3_no_candidate. intros o Ho. apply Hnone, Ho.
Qed.

End BackwardSearchStages.

(** In [00 b8 90 90 90 90 01] at offset 2 nothing ends at 2 and nothing
    bridges; decoding fails at offset 0 ([00]) and succeeds at offset 1:
    the step back is 2. *)
Lemma length_disasm_back_stage3_witness :
  QDisassemblyView.length_disasm_back QDisassemblyView.sample_decode
    [x00; xb8; x90; x90; x90; x90; x01] 7 2 = (2 - 0)%nat.
Proof.
  apply (length_disasm_back_stage3 QDisassemblyView.sample_decode
           [x00; xb8; x90; x90; x90; x90; x01] 7 2 0).
  - intros [|[|o]] Ho; [reflexivity | reflexivity | lia].
  - intros [|[|o]] Ho; [reflexivity | reflexivity | lia].
  - lia.
  - reflexivity.
  - intros [|[|o]] Ho; [lia | reflexivity | lia].
Defined.

(** In [90 66 90] at offset 2 (inside [66 90]) nothing ends at 2, but
    [90] at offset 0 followed by [66 90] ends where the [90] decoded at
    offset 2 ends: the step back is 2. *)
Lemma length_disasm_back_stage2_witness :
  QDisassemblyView.length_disasm_back QDisassemblyView.sample_decode
    [x90; x66; x90] 3 2 = (2 - 0)%nat.
Proof.
  apply (length_disasm_back_stage2 QDisassemblyView.sample_decode
           [x90; x66; x90] 3 2 0).
  - intros [|[|o]] Ho; [reflexivity | reflexivity | lia].
  - lia.
  - reflexivity.
  - intros o Ho. lia.
Defined.

(** In [b8 90 90 90 90] at offset 1 the only earlier offset decodes to a
    five-byte instruction: nothing is found and the result is 0. *)
Lemma length_disasm_back_zero_iff_witness :
  QDisassemblyView.length_disasm_back QDisassemblyView.sample_decode
    [xb8; x90; x90; x90; x90] 5 1 = 0%nat.
Proof.
  apply (proj2 (length_disasm_back_zero_iff QDisassemblyView.sample_decode
                  [xb8; x90; x90; x90; x90] 5 1)).
  intros [|o] Ho; [|lia]. repeat split; reflexivity.
Defined.

(** ** Forward listing and navigation *)

Section ForwardListing.
Import QDisassemblyView.
Context (decode_at : Z -> list byte -> Instruction).
Context (get_instruction_bytes : Z -> Z -> option (list byte)).
Context (MAX_SIZE : Z).

Lemma disassembly_loop_step (inst_buf : list byte) (start max_offset : Z)
    (remaining : nat) (offset : Z) :
  offset < max_offset ->
  disassembly_loop decode_at inst_buf start max_offset (S remaining) offset =
  let inst :=
    decode_at (wrap64 (start + offset))
      (window inst_buf (Z.to_nat offset) (length inst_buf)) in
  (wrap64 (start + offset), inst)
  :: disassembly_loop decode_at inst_buf start max_offset remaining
       (offset + line_advance inst).
Proof.
  intros H. simpl. apply Z.ltb_lt in H. rewrite H. unfold line_advance.
  destruct (valid _); reflexivity.
Qed.

Lemma disassembly_loop_length (inst_buf : list byte) (start max_offset : Z)
    (remaining : nat) : forall offset,
  (length (disassembly_loop decode_at inst_buf start max_offset remaining offset)
   <= remaining)%nat.
Proof.
  induction remaining as [|r IH]; intros offset; simpl; [lia|].
  destruct (offset <? max_offset); simpl; [|lia].
  specialize (IH (if valid
       (decode_at (wrap64 (start + offset))
          (window inst_buf (Z.to_nat offset) (length inst_buf)))
     then offset + Z.of_nat
       (byte_size
          (decode_at (wrap64 (start + offset))
             (window inst_buf (Z.to_nat offset) (length inst_buf))))
     else offset + 1)). lia.
Qed.

Lemma disassembly_loop_head (inst_buf : list byte) (start max_offset : Z)
    (remaining : nat) (offset : Z) (a : Z) (inst : Instruction) :
  head (disassembly_loop decode_at inst_buf start max_offset remaining offset)
  = Some (a, inst) ->
  a = wrap64 (start + offset) /\ offset < max_offset.
Proof.
  destruct remaining as [|r]; simpl; [discriminate|].
  destruct (Z.ltb_spec offset max_offset); simpl; [|discriminate].
  intros [= <- _]. split; [reflexivity | assumption].
Qed.

Lemma disassembly_loop_chain (inst_buf : list byte) (start max_offset : Z)
    (remaining : nat) : forall offset i a inst a' inst',
  disassembly_loop decode_at inst_buf start max_offset remaining offset !! i
  = Some (a, inst) ->
  disassembly_loop decode_at inst_buf start max_offset remaining offset !! S i
  = Some (a', inst') ->
  a' = wrap64 (a + line_advance inst).
Proof.
  induction remaining as [|r IH]; intros offset i a inst a' inst' Hi HSi.
  - discriminate.
  - destruct (Z.ltb_spec offset max_offset) as [Hlt|Hge].
    + rewrite disassembly_loop_step in Hi, HSi by exact Hlt. simpl in Hi, HSi.
      destruct i as [|i].
      * injection Hi as <- <-. rewrite <- head_lookup in HSi.
        apply disassembly_loop_head in HSi as [-> _].
        unfold wrap64. rewrite Zplus_mod_idemp_l. f_equal. lia.
      * exact (IH _ _ _ _ _ _ Hi HSi).
    + simpl in Hi. apply Z.ltb_ge in Hge. rewrite Hge in Hi. discriminate.
Qed.

Lemma disassembly_loop_offsets (inst_buf : list byte) (start max_offset : Z)
    (remaining : nat) : forall offset a inst,
  0 <= offset ->
  (a, inst) ∈ disassembly_loop decode_at inst_buf start max_offset remaining offset ->
  exists o, offset <= o < max_offset /\ a = wrap64 (start + o)
    /\ inst = decode_at a (window inst_buf (Z.to_nat o) (length inst_buf)).
Proof.
  induction remaining as [|r IH]; intros offset a inst Hpos Hin.
  - inversion Hin.
  - destruct (Z.ltb_spec offset max_offset) as [Hlt|Hge].
    + rewrite disassembly_loop_step in Hin by exact Hlt.
      apply elem_of_cons in Hin as [[= -> ->]|Hin].
      * exists offset. split; [lia|]. split; reflexivity.
      * apply IH in Hin as (o & Ho & Ha & Hinst).
        -- exists o. split; [|split; assumption].
           unfold line_advance in Ho. destruct (valid _); lia.
        -- unfold line_advance. destruct (valid _); lia.
    + simpl in Hin. apply Z.ltb_ge in Hge. rewrite Hge in Hin. inversion Hin.
Qed.

(** X8: the listing [updateDisassembly] builds has at most
    [lines_to_render] lines; every line is an offset of the bytes read,
    below the end of the region and of the buffer, decoded from that
    offset on, the first one (when there is one) being the start address;
    and every line starts where the one before it ends: at its address
    plus the length of its instruction, or plus 1 when that is invalid. *)
Theorem updateDisassembly_lines (buffer_size start_address region_end : Z)
    (lines_to_render : nat) :
  let lines :=
    updateDisassembly decode_at get_instruction_bytes buffer_size
      start_address region_end lines_to_render in
  (length lines <= lines_to_render)%nat
  /\ (forall a inst, head lines = Some (a, inst) -> a = wrap64 start_address)
  /\ (forall a inst, (a, inst) ∈ lines ->
        exists inst_buf o,
          get_instruction_bytes start_address buffer_size = Some inst_buf
          /\ 0 <= o < Z.of_nat (length inst_buf)
          /\ o < to_int (wrap64 (region_end - start_address))
          /\ a = wrap64 (start_address + o)
          /\ inst = decode_at a (window inst_buf (Z.to_nat o) (length inst_buf)))
  /\ (forall i a inst a' inst',
        lines !! i = Some (a, inst) -> lines !! S i = Some (a', inst') ->
        a' = wrap64 (a + if valid inst then Z.of_nat (byte_size inst) else 1)).
Proof.
  unfold updateDisassembly.
  destruct (get_instruction_bytes start_address buffer_size) as [inst_buf|];
    simpl.
  2:{ split; [lia|]. split; [discriminate|].
      split; [intros a inst H; inversion H | discriminate]. }
  split; [apply disassembly_loop_length|].
  split; [|split].
  - intros a inst H. apply disassembly_loop_head in H as [-> _].
    f_equal. lia.
  - intros a inst H. apply disassembly_loop_offsets in H as (o & Ho & Ha & Hi);
      [|lia].
    exists inst_buf, o. split; [reflexivity|]. repeat split; try assumption; lia.
  - intros i a inst a' inst' Hi HSi.
    exact (disassembly_loop_chain _ _ _ _ _ _ _ _ _ _ Hi HSi).
Qed.

(** X9: going forward by [a + b] instructions is going forward by [a]
    and then by [b], provided the first [a] instructions can be read and
    decoded; and when the instruction at the current address cannot be
    read or decoded, the result is the next byte however many
    instructions were asked for. *)
Theorem following_instructions_compose (address_offset : Z)
    (region_end : option Z) (current_address : Z) :
  (forall a b,
      steps_decode decode_at get_instruction_bytes MAX_SIZE address_offset
        region_end a current_address = true ->
      following_instructions decode_at get_instruction_bytes MAX_SIZE
        address_offset region_end (a + b) current_address
      = following_instructions decode_at get_instruction_bytes MAX_SIZE
          address_offset region_end b
          (following_instructions decode_at get_instruction_bytes MAX_SIZE
             address_offset region_end a current_address))
  /\ (forall count,
      steps_decode decode_at get_instruction_bytes MAX_SIZE address_offset
        region_end 1 current_address = false ->
      following_instructions decode_at get_instruction_bytes MAX_SIZE
        address_offset region_end (S count) current_address
      = wrap64 (current_address + 1)).
Proof.
  split.
  - intros a. revert current_address.
    induction a as [|a IH]; intros current_address b Hsteps; simpl in *.
    + reflexivity.
    + destruct (get_instruction_bytes _ _) as [buf|]; [|discriminate].
      destruct (valid (decode_at current_address buf)); [|discriminate].
      apply IH, Hsteps.
  - intros count. simpl.
    destruct (get_instruction_bytes _ _) as [buf|]; [|reflexivity].
    rewrite andb_true_r. intros ->. reflexivity.
Qed.

End ForwardListing.

(** The listing of the sample memory from address 0: [90], [66 90], the
    invalid [01], [b8 ..]; the second line starts at 1. *)
Lemma updateDisassembly_lines_witness :
  QDisassemblyView.updateDisassembly (fun _ => QDisassemblyView.sample_decode)
    QDisassemblyView.sample_read 10 0 0x1000 4
  = [(0, {| QDisassemblyView.valid := true; QDisassemblyView.byte_size := 1 |});
     (1, {| QDisassemblyView.valid := true; QDisassemblyView.byte_size := 2 |});
     (3, {| QDisassemblyView.valid := false; QDisassemblyView.byte_size := 1 |});
     (4, {| QDisassemblyView.valid := true; QDisassemblyView.byte_size := 5 |})]
  /\ 1 = wrap64 (0 + 1).
Proof.
  split; [vm_compute; reflexivity|].
  destruct (updateDisassembly_lines (fun _ => QDisassemblyView.sample_decode)
              QDisassemblyView.sample_read 10 0 0x1000 4)
    as (_ & _ & _ & Hchain).
  exact (Hchain 0%nat 0 {| QDisassemblyView.valid := true;
                           QDisassemblyView.byte_size := 1 |}
           1 {| QDisassemblyView.valid := true; QDisassemblyView.byte_size := 2 |}
           eq_refl eq_refl).
Defined.

(** In the sample memory two instructions forward from 0 and then one
    more is three forward, and all three stop at 4, after the invalid
    byte at 3. *)
Lemma following_instructions_compose_witness :
  QDisassemblyView.following_instructions (fun _ => QDisassemblyView.sample_decode)
    QDisassemblyView.sample_read 15 0 None (2 + 1) 0
  = QDisassemblyView.following_instructions (fun _ => QDisassemblyView.sample_decode)
      QDisassemblyView.sample_read 15 0 None 1 3
  /\ QDisassemblyView.following_instructions (fun _ => QDisassemblyView.sample_decode)
       QDisassemblyView.sample_read 15 0 None 5 3
     = wrap64 (3 + 1).
Proof.
  destruct (following_instructions_compose (fun _ => QDisassemblyView.sample_decode)
              QDisassemblyView.sample_read 15 0 None 0) as [Hcompose _].
  destruct (following_instructions_compose (fun _ => QDisassemblyView.sample_decode)
              QDisassemblyView.sample_read 15 0 None 3) as [_ Hstop].
  split.
  - exact (Hcompose 2%nat 1%nat eq_refl).
  - exact (Hstop 4%nat eq_refl).
Defined.

(** ** Lines of addresses *)

(** X10: when [get_line_of_address] reports a line, the address is on
    that line and on no earlier one; it reports a line for every address
    of a list in ascending order, and none for an address that is not in
    the list. *)
Theorem get_line_of_address_found (show_addresses : list Z) (addr : Z) :
  (forall line,
      QDisassemblyView.get_line_of_address show_addresses addr = Some (true, line) ->
      show_addresses !! line = Some addr
      /\ forall j, (j < line)%nat -> show_addresses !! j <> Some addr)
  /\ ((forall i j a b, (i <= j)%nat -> show_addresses !! i = Some a ->
         show_addresses !! j = Some b -> a <= b) ->
      addr ∈ show_addresses ->
      exists line,
        QDisassemblyView.get_line_of_address show_addresses addr = Some (true, line))
  /\ (show_addresses <> [] -> addr ∉ show_addresses ->
      QDisassemblyView.get_line_of_address show_addresses addr = Some (false, 0%nat)).
Proof.
  unfold QDisassemblyView.get_line_of_address. split; [|split].
  - intros line H.
    destruct (head show_addresses) as [first|]; [|discriminate].
    destruct (last show_addresses) as [lst|]; [|discriminate].
    destruct ((first <=? addr) && (addr <=? lst)); [|discriminate].
    destruct (list_find (fun a => a = addr) show_addresses) as [[pos x]|] eqn:Hfind;
      [|discriminate].
    injection H as <-.
    apply list_find_Some in Hfind as (Hpos & -> & Hfirst).
    split; [exact Hpos|]. intros j Hj Hjaddr. exact (Hfirst j addr Hjaddr Hj eq_refl).
  - intros Hsorted Hin.
    apply list_elem_of_lookup in Hin as [i Hi].
    destruct show_addresses as [|first rest] eqn:Hl; [discriminate|].
    rewrite <- Hl in *. assert (Hhead : head show_addresses = Some first)
      by (rewrite Hl; reflexivity).
    rewrite Hhead.
    destruct (last show_addresses) as [lst|] eqn:Hlast;
      [|rewrite Hl in Hlast; apply last_None in Hlast; discriminate].
    rewrite head_lookup in Hhead. rewrite last_lookup in Hlast.
    assert (Hi_lt : (i < length show_addresses)%nat)
      by (apply lookup_lt_is_Some; eauto).
    assert (first <= addr) by (apply (Hsorted 0%nat i); [lia | assumption..]).
    assert (addr <= lst)
      by (apply (Hsorted i (pred (length show_addresses))); [lia | assumption..]).
    destruct (Z.leb_spec first addr); [|lia].
    destruct (Z.leb_spec addr lst); [|lia]. simpl.
    destruct (list_find (fun a => a = addr) show_addresses) as [[pos x]|] eqn:Hfind.
    + eauto.
    + apply list_find_None in Hfind.
      rewrite Forall_forall in Hfind.
      exfalso. apply (Hfind addr); [|reflexivity].
      apply list_elem_of_lookup. eauto.
  - intros Hne Hnotin.
    destruct show_addresses as [|first rest] eqn:Hl; [contradiction|].
    rewrite <- Hl in *.
    assert (Hhead : head show_addresses = Some first) by (rewrite Hl; reflexivity).
    rewrite Hhead.
    destruct (last show_addresses) as [lst|] eqn:Hlast;
      [|rewrite Hl in Hlast; apply last_None in Hlast; discriminate].
    destruct ((first <=? addr) && (addr <=? lst)); [|reflexivity].
    destruct (list_find (fun a => a = addr) show_addresses) as [[pos x]|] eqn:Hfind;
      [|reflexivity].
    apply list_find_Some in Hfind as (Hpos & -> & _).
    exfalso. apply Hnotin. apply list_elem_of_lookup. eauto.
Qed.

Lemma get_line_of_address_found_witness :
  QDisassemblyView.get_line_of_address [0; 1; 3; 4] 3 = Some (true, 2%nat)
  /\ [0; 1; 3; 4] !! 2%nat = Some 3
  /\ QDisassemblyView.get_line_of_address [0; 1; 3; 4] 2 = Some (false, 0%nat).
Proof.
  destruct (get_line_of_address_found [0; 1; 3; 4] 3) as (Hfound & _ & _).
  destruct (get_line_of_address_found [0; 1; 3; 4] 2) as (_ & _ & Hmissing).
  split; [reflexivity|]. split.
  - exact (proj1 (Hfound 2%nat eq_refl)).
  - apply Hmissing; [discriminate|].
    apply (bool_decide_unpack _). vm_compute. reflexivity.
Defined.

(** ** Saved column positions *)

Section SavedState.
Import QDisassemblyView.

Lemma Z_of_byte_of_Z (z : Z) : Z_of_byte (byte_of_Z z) = z mod 256.
Proof.
  unfold Z_of_byte, byte_of_Z.
  pose proof (Z.mod_pos_bound z 256 ltac:(lia)) as Hb.
  pose proof (Byte.to_of_N_option_map (Z.to_N (z mod 256))) as H.
  destruct (Byte.of_N (Z.to_N (z mod 256))) as [b|]; simpl in *.
  - destruct (N.leb_spec (Z.to_N (z mod 256)) 255); [|discriminate].
    injection H as ->. lia.
  - destruct (N.leb_spec (Z.to_N (z mod 256)) 255); [discriminate | lia].
Qed.

Lemma to_int_in_range (z : Z) :
  - 2 ^ 31 <= z < 2 ^ 31 -> to_int (z mod 2 ^ 32) = z.
Proof.
  intros H. unfold to_int.
  rewrite Zplus_mod_idemp_l, Z.mod_small by lia. lia.
Qed.

Lemma four_bytes_mod (z : Z) :
  z mod 256 + 2 ^ 8 * ((z / 2 ^ 8) mod 256) + 2 ^ 16 * ((z / 2 ^ 16) mod 256)
  + 2 ^ 24 * ((z / 2 ^ 24) mod 256)
  = z mod 2 ^ 32.
Proof.
  change (2 ^ 32) with (256 * (256 * (256 * 256))).
  rewrite !Z.rem_mul_r by lia.
  change (2 ^ 16) with (2 ^ 8 * 2 ^ 8). change (2 ^ 24) with (2 ^ 8 * 2 ^ 8 * 2 ^ 8).
  rewrite <- !Z.div_div by lia.
  change (2 ^ 8) with 256. lia.
Qed.

(** What [memcpy] writes for an [int] reads back as that [int]. *)
Lemma bytes_int_bytes (z : Z) :
  - 2 ^ 31 <= z < 2 ^ 31 -> bytes_int (int_bytes z) = z.
Proof.
  intros H. unfold bytes_int, int_bytes. cbn [nth].
  rewrite !Z_of_byte_of_Z, four_bytes_mod. apply to_int_in_range, H.
Qed.

(** X11: restoring what was saved gives back the three column positions,
    whatever the view held before and whatever follows the sixteen bytes
    in the buffer; a buffer of fewer than sixteen bytes changes
    nothing. *)
Theorem restoreState_saveState (view other : Columns) (more : list byte) :
  (- 2 ^ 31 <= line1_ view < 2 ^ 31 ->
   - 2 ^ 31 <= line2_ view < 2 ^ 31 ->
   - 2 ^ 31 <= line3_ view < 2 ^ 31 ->
   restoreState other (saveState view ++ more) = view)
  /\ (forall stateBuffer,
        (length stateBuffer < 16)%nat ->
        restoreState other stateBuffer = other).
Proof.
  split.
  - intros H1 H2 H3. unfold restoreState, saveState. cbn [version line1 line2 line3].
    assert (Hlen : (sizeof_WidgetState1 <=?
                    Z.of_nat (length ((int_bytes sizeof_WidgetState1
                      ++ int_bytes (line1_ view) ++ int_bytes (line2_ view)
                      ++ int_bytes (line3_ view)) ++ more))) = true).
    { apply Z.leb_le. rewrite length_app. unfold sizeof_WidgetState1. simpl. lia. }
    rewrite Hlen.
    change (take 4 ((int_bytes sizeof_WidgetState1 ++ int_bytes (line1_ view)
              ++ int_bytes (line2_ view) ++ int_bytes (line3_ view)) ++ more))
      with (int_bytes sizeof_WidgetState1).
    change (take 4 (drop 4 ((int_bytes sizeof_WidgetState1 ++ int_bytes (line1_ view)
              ++ int_bytes (line2_ view) ++ int_bytes (line3_ view)) ++ more)))
      with (int_bytes (line1_ view)).
    change (take 4 (drop 8 ((int_bytes sizeof_WidgetState1 ++ int_bytes (line1_ view)
              ++ int_bytes (line2_ view) ++ int_bytes (line3_ view)) ++ more)))
      with (int_bytes (line2_ view)).
    change (take 4 (drop 12 ((int_bytes sizeof_WidgetState1 ++ int_bytes (line1_ view)
              ++ int_bytes (line2_ view) ++ int_bytes (line3_ view)) ++ more)))
      with (int_bytes (line3_ view)).
    rewrite !bytes_int_bytes by (assumption || (unfold sizeof_WidgetState1; lia)).
    destruct view. reflexivity.
  - intros stateBuffer Hshort. unfold restoreState, sizeof_WidgetState1.
    destruct (Z.leb_spec 16 (Z.of_nat (length stateBuffer))); [lia | reflexivity].
Qed.

End SavedState.

Lemma restoreState_saveState_witness :
  QDisassemblyView.restoreState
    {| QDisassemblyView.line1_ := 0; QDisassemblyView.line2_ := 0;
       QDisassemblyView.line3_ := 0 |}
    (QDisassemblyView.saveState
       {| QDisassemblyView.line1_ := 100; QDisassemblyView.line2_ := -1;
          QDisassemblyView.line3_ := 70000 |} ++ [])
  = {| QDisassemblyView.line1_ := 100; QDisassemblyView.line2_ := -1;
       QDisassemblyView.line3_ := 70000 |}.
Proof.
  apply (proj1 (restoreState_saveState
                  {| QDisassemblyView.line1_ := 100; QDisassemblyView.line2_ := -1;
                     QDisassemblyView.line3_ := 70000 |}
                  {| QDisassemblyView.line1_ := 0; QDisassemblyView.line2_ := 0;
                     QDisassemblyView.line3_ := 0 |} [])); simpl; lia.
Defined.

(** ** The read for one instruction *)

(** X12: for an address and a region end that are 64-bit values, with the
    longest instruction not reaching past the address space, the read
    that [get_instruction_size] asks for is between 0 and [MAX_SIZE]
    bytes and, when the region has an end at or after the address, does
    not cross that end; past the end it asks for nothing. *)
Theorem instruction_read_size_within_region (MAX_SIZE region_end address : Z) :
  0 <= MAX_SIZE < 2 ^ 31 ->
  0 <= address -> address + MAX_SIZE < 2 ^ 64 ->
  0 <= region_end < 2 ^ 64 ->
  0 <= QDisassemblyView.instruction_read_size MAX_SIZE region_end address <= MAX_SIZE
  /\ (region_end <> 0 -> address <= region_end ->
      address + QDisassemblyView.instruction_read_size MAX_SIZE region_end address
      <= region_end)
  /\ (region_end <> 0 -> region_end < address ->
      QDisassemblyView.instruction_read_size MAX_SIZE region_end address = 0).
Proof.
  intros Hmax Haddr Hfit Hend. unfold QDisassemblyView.instruction_read_size.
  rewrite (wrap64_small (address + MAX_SIZE)) by lia.
  destruct (Z.eqb_spec region_end 0) as [->|Hne]; simpl.
  - repeat split; try lia.
  - destruct (Z.ltb_spec region_end (address + MAX_SIZE)) as [Hcross|Hin].
    + destruct (Z.leb_spec address region_end) as [Hle|Hgt].
      * rewrite (wrap64_small (region_end - address)) by lia.
        assert (Hint : QDisassemblyView.to_int (region_end - address)
                       = region_end - address).
        { unfold QDisassemblyView.to_int. rewrite Z.mod_small by lia. lia. }
        rewrite Hint. repeat split; lia.
      * repeat split; lia.
    + repeat split; lia.
Qed.

Lemma instruction_read_size_within_region_witness :
  QDisassemblyView.instruction_read_size 15 0x1000 0xffa = 6
  /\ 0xffa + QDisassemblyView.instruction_read_size 15 0x1000 0xffa <= 0x1000.
Proof.
  split; [reflexivity|].
  apply (instruction_read_size_within_region 15 0x1000 0xffa); lia.
Defined.

(** ** The x86 condition codes *)

Section X86Conditions.
Import X86.
Context (cc : ConditionCodes).

Lemma is_jcc_taken_flag_test (state : State) (cond : Z) :
  special_codes_apart cc -> 0 <= cond <= 15 ->
  is_jcc_taken cc state cond =
  flag_test (negb (Z.land (flags state) 0x0001 =? 0))
    (negb (Z.land (flags state) 0x0004 =? 0))
    (negb (Z.land (flags state) 0x0040 =? 0))
    (negb (Z.land (flags state) 0x0080 =? 0))
    (negb (Z.land (flags state) 0x0800 =? 0)) cond.
Proof.
  intros (Hu & Hr & He & Hc) Hcond. unfold is_jcc_taken.
  destruct (Z.eqb_spec cond (CC_UNCONDITIONAL cc)); [lia|].
  destruct (Z.eqb_spec cond (CC_RCXZ cc)); [lia|].
  destruct (Z.eqb_spec cond (CC_ECXZ cc)); [lia|].
  destruct (Z.eqb_spec cond (CC_CXZ cc)); [lia|].
  reflexivity.
Qed.

Lemma flag_test_negation (cf pf zf sf of' : bool) (cond : Z) :
  0 <= cond <= 15 ->
  flag_test cf pf zf sf of' (Z.lxor cond 1) = negb (flag_test cf pf zf sf of' cond).
Proof.
  intros Hcond. assert (Hin : In cond [0; 1; 2; 3; 4; 5; 6; 7; 8; 9; 10; 11;
                                       12; 13; 14; 15]) by (simpl; lia).
  simpl in Hin.
  repeat (destruct Hin as [<-|Hin];
          [destruct cf, pf, zf, sf, of'; reflexivity|]).
  contradiction.
Qed.

Lemma lxor_1_range (cond : Z) : 0 <= cond <= 15 -> 0 <= Z.lxor cond 1 <= 15.
Proof.
  intros Hcond. assert (Hin : In cond [0; 1; 2; 3; 4; 5; 6; 7; 8; 9; 10; 11;
                                       12; 13; 14; 15]) by (simpl; lia).
  simpl in Hin.
  repeat (destruct Hin as [<-|Hin]; [vm_compute; split; discriminate|]).
  contradiction.
Qed.

Lemma sixteen_codes (cond : Z) :
  0 <= cond <= 15 ->
  In cond [0; 1; 2; 3; 4; 5; 6; 7; 8; 9; 10; 11; 12; 13; 14; 15].
Proof. intros H. simpl. lia. Qed.

End X86Conditions.

(** X13: with the four special codes outside 0..15, each of the sixteen
    flag tests is the negation of the one that differs from it in the low
    bit; below-or-equal is below or equal, less-or-equal is less or
    equal, less is sign differing from overflow; and every one of the
    sixteen is taken in some state and not taken in another. *)
Theorem x86_is_jcc_taken_table (cc : X86.ConditionCodes) :
  X86.special_codes_apart cc ->
  (forall state cond, 0 <= cond <= 15 ->
     X86.is_jcc_taken cc state (Z.lxor cond 1)
     = negb (X86.is_jcc_taken cc state cond))
  /\ (forall state,
        X86.is_jcc_taken cc state 0x6
        = X86.is_jcc_taken cc state 0x2 || X86.is_jcc_taken cc state 0x4
        /\ X86.is_jcc_taken cc state 0xe
           = X86.is_jcc_taken cc state 0x4 || X86.is_jcc_taken cc state 0xc
        /\ X86.is_jcc_taken cc state 0xc
           = xorb (X86.is_jcc_taken cc state 0x8) (X86.is_jcc_taken cc state 0x0))
  /\ (forall cond, 0 <= cond <= 15 ->
        exists taken_in not_taken_in,
          X86.is_jcc_taken cc taken_in cond = true
          /\ X86.is_jcc_taken cc not_taken_in cond = false).
Proof.
  intros Hapart. split; [|split].
  - intros state cond Hcond.
    rewrite !(is_jcc_taken_flag_test cc state)
      by (assumption || apply lxor_1_range, Hcond).
    apply flag_test_negation, Hcond.
  - intros state.
    rewrite !(is_jcc_taken_flag_test cc state) by (assumption || lia).
    generalize (negb (Z.land (X86.flags state) 1 =? 0)),
               (negb (Z.land (X86.flags state) 4 =? 0)),
               (negb (Z.land (X86.flags state) 64 =? 0)),
               (negb (Z.land (X86.flags state) 128 =? 0)),
               (negb (Z.land (X86.flags state) 2048 =? 0)).
    intros cf pf zf sf of'. destruct cf, pf, zf, sf, of'; repeat split; reflexivity.
  - intros cond Hcond.
    pose proof (sixteen_codes cond Hcond) as Hin. simpl in Hin.
    repeat (destruct Hin as [<-|Hin];
      [first
         [ exists (X86.state_with 0x8c5 0), (X86.state_with 0 0);
           rewrite !is_jcc_taken_flag_test by (assumption || lia);
           split; vm_compute; reflexivity
         | exists (X86.state_with 0 0), (X86.state_with 0x8c5 0);
           rewrite !is_jcc_taken_flag_test by (assumption || lia);
           split; vm_compute; reflexivity
         | exists (X86.state_with 0x80 0), (X86.state_with 0 0);
           rewrite !is_jcc_taken_flag_test by (assumption || lia);
           split; vm_compute; reflexivity
         | exists (X86.state_with 0 0), (X86.state_with 0x80 0);
           rewrite !is_jcc_taken_flag_test by (assumption || lia);
           split; vm_compute; reflexivity ]|]).
    contradiction.
Qed.

Lemma x86_is_jcc_taken_table_witness :
  X86.is_jcc_taken X86.sample_condition_codes (X86.state_with 0x41 0) (Z.lxor 6 1)
  = negb (X86.is_jcc_taken X86.sample_condition_codes (X86.state_with 0x41 0) 6)
  /\ X86.is_jcc_taken X86.sample_condition_codes (X86.state_with 0x41 0) 6 = true.
Proof.
  assert (Hapart : X86.special_codes_apart X86.sample_condition_codes)
    by (unfold X86.special_codes_apart; simpl; lia).
  split; [|reflexivity].
  exact (proj1 (x86_is_jcc_taken_table X86.sample_condition_codes Hapart)
           (X86.state_with 0x41 0) 6 ltac:(lia)).
Defined.

(** X14: with the special codes distinct, the count-register tests look
    at the low 64, 32 and 16 bits of [rcx] only, so [rcx] zero implies
    [ecx] zero implies [cx] zero; the flags do not matter. *)
Theorem x86_is_jcc_taken_counter (cc : X86.ConditionCodes) (state : State) :
  X86.CC_RCXZ cc <> X86.CC_UNCONDITIONAL cc ->
  X86.CC_ECXZ cc <> X86.CC_UNCONDITIONAL cc ->
  X86.CC_CXZ cc <> X86.CC_UNCONDITIONAL cc ->
  X86.CC_ECXZ cc <> X86.CC_RCXZ cc ->
  X86.CC_CXZ cc <> X86.CC_RCXZ cc ->
  X86.CC_CXZ cc <> X86.CC_ECXZ cc ->
  (X86.is_jcc_taken cc state (X86.CC_RCXZ cc) = true <->
   reg_value (gp_register state X86.rCX) mod 2 ^ 64 = 0)
  /\ (X86.is_jcc_taken cc state (X86.CC_ECXZ cc) = true <->
      reg_value (gp_register state X86.rCX) mod 2 ^ 32 = 0)
  /\ (X86.is_jcc_taken cc state (X86.CC_CXZ cc) = true <->
      reg_value (gp_register state X86.rCX) mod 2 ^ 16 = 0)
  /\ (X86.is_jcc_taken cc state (X86.CC_RCXZ cc) = true ->
      X86.is_jcc_taken cc state (X86.CC_ECXZ cc) = true)
  /\ (X86.is_jcc_taken cc state (X86.CC_ECXZ cc) = true ->
      X86.is_jcc_taken cc state (X86.CC_CXZ cc) = true).
Proof.
  intros H1 H2 H3 H4 H5 H6.
  assert (Hr : X86.is_jcc_taken cc state (X86.CC_RCXZ cc) = true <->
               reg_value (gp_register state X86.rCX) mod 2 ^ 64 = 0).
  { unfold X86.is_jcc_taken, X86.value64.
    destruct (Z.eqb_spec (X86.CC_RCXZ cc) (X86.CC_UNCONDITIONAL cc)); [contradiction|].
    rewrite Z.eqb_refl. apply Z.eqb_eq. }
  assert (He : X86.is_jcc_taken cc state (X86.CC_ECXZ cc) = true <->
               reg_value (gp_register state X86.rCX) mod 2 ^ 32 = 0).
  { unfold X86.is_jcc_taken, X86.value32.
    destruct (Z.eqb_spec (X86.CC_ECXZ cc) (X86.CC_UNCONDITIONAL cc)); [contradiction|].
    destruct (Z.eqb_spec (X86.CC_ECXZ cc) (X86.CC_RCXZ cc)); [contradiction|].
    rewrite Z.eqb_refl. apply Z.eqb_eq. }
  assert (Hc : X86.is_jcc_taken cc state (X86.CC_CXZ cc) = true <->
               reg_value (gp_register state X86.rCX) mod 2 ^ 16 = 0).
  { unfold X86.is_jcc_taken, X86.value16.
    destruct (Z.eqb_spec (X86.CC_CXZ cc) (X86.CC_UNCONDITIONAL cc)); [contradiction|].
    destruct (Z.eqb_spec (X86.CC_CXZ cc) (X86.CC_RCXZ cc)); [contradiction|].
    destruct (Z.eqb_spec (X86.CC_CXZ cc) (X86.CC_ECXZ cc)); [contradiction|].
    rewrite Z.eqb_refl. apply Z.eqb_eq. }
  split; [exact Hr|]. split; [exact He|]. split; [exact Hc|]. split.
  - rewrite Hr, He. intros H.
    change (2 ^ 64) with (2 ^ 32 * 2 ^ 32) in H.
    rewrite Z.rem_mul_r in H by lia.
    pose proof (Z.mod_pos_bound (reg_value (gp_register state X86.rCX)) (2 ^ 32)
                  ltac:(lia)).
    pose proof (Z.mod_pos_bound
                  (reg_value (gp_register state X86.rCX) / 2 ^ 32) (2 ^ 32)
                  ltac:(lia)).
    lia.
  - rewrite He, Hc. intros H.
    change (2 ^ 32) with (2 ^ 16 * 2 ^ 16) in H.
    rewrite Z.rem_mul_r in H by lia.
    pose proof (Z.mod_pos_bound (reg_value (gp_register state X86.rCX)) (2 ^ 16)
                  ltac:(lia)).
    pose proof (Z.mod_pos_bound
                  (reg_value (gp_register state X86.rCX) / 2 ^ 16) (2 ^ 16)
                  ltac:(lia)).
    lia.
Qed.

(** With [rcx] = 2^32 the 64-bit test is not taken, the 32-bit and the
    16-bit ones are. *)
Lemma x86_is_jcc_taken_counter_witness :
  X86.is_jcc_taken X86.sample_condition_codes (X86.state_with 0 (2 ^ 32)) 0x13 = false
  /\ X86.is_jcc_taken X86.sample_condition_codes (X86.state_with 0 (2 ^ 32)) 0x12 = true
  /\ X86.is_jcc_taken X86.sample_condition_codes (X86.state_with 0 (2 ^ 32)) 0x11 = true.
Proof.
  split; [reflexivity|]. split; [reflexivity|].
  destruct (x86_is_jcc_taken_counter X86.sample_condition_codes
              (X86.state_with 0 (2 ^ 32))) as (_ & _ & _ & _ & Hcx);
    try (simpl; lia).
  exact (Hcx eq_refl).
Defined.

(** ** Filling instructions and failing addresses on x86 *)

(** X15: with the zero-bytes option off, a valid instruction is filling
    exactly when it is [nop] or [int3], a [mov] between two operands
    naming the same register, or a [lea] of a register from a memory
    expression with scale 1, displacement 0 and that register as its only
    register; with the option on, a valid instruction whose bytes are two
    zero bytes is filling as well; an invalid instruction is filling
    exactly when it is a single zero byte. *)
Theorem x86_is_filling_exactly (ext : X86.Externals) (inst : X86.Instruction) :
  (X86.insn_valid inst = true -> X86.zeros_are_filling ext = false ->
   (X86.is_filling ext inst = true <->
    X86.operation inst = X86.X86_INS_NOP
    \/ X86.operation inst = X86.X86_INS_INT3
    \/ (X86.operation inst = X86.X86_INS_MOV
        /\ exists r,
             X86.data (X86.operand_at inst 0) = X86.TYPE_REGISTER r
             /\ X86.data (X86.operand_at inst 1) = X86.TYPE_REGISTER r)
    \/ (X86.operation inst = X86.X86_INS_LEA
        /\ exists r e,
             X86.data (X86.operand_at inst 0) = X86.TYPE_REGISTER r
             /\ X86.data (X86.operand_at inst 1) = X86.TYPE_EXPRESSION e
             /\ X86.scale e = 1 /\ X86.displacement e = 0
             /\ ((X86.base e = X86.X86_REG_INVALID /\ X86.index e = r)
                 \/ (X86.base e <> X86.X86_REG_INVALID
                     /\ X86.index e = X86.X86_REG_INVALID /\ X86.base e = r)))))
  /\ (X86.insn_valid inst = true -> X86.zeros_are_filling ext = true ->
      take (Z.to_nat (X86.size inst)) (X86.bytes inst) = [x00; x00] ->
      X86.is_filling ext inst = true)
  /\ (X86.insn_valid inst = false ->
      (X86.is_filling ext inst = true <->
       X86.size inst = 1 /\ head (X86.bytes inst) = Some x00)).
Proof.
  split; [|split].
  - intros Hvalid Hzeros. unfold X86.is_filling. rewrite Hvalid, Hzeros.
    assert (Hret : forall b : bool, (if negb b then b else b) = b)
      by (intros []; reflexivity).
    rewrite Hret.
    destruct (X86.operation inst) eqn:Hop.
    + split; [auto | reflexivity].
    + split; [auto | reflexivity].
    + (* lea *)
      split.
      * intros H. right. right. right. split; [reflexivity|].
        destruct (X86.data (X86.operand_at inst 0)) as [| r | | | |];
          try discriminate.
        destruct (X86.data (X86.operand_at inst 1)) as [| | e | | |];
          try discriminate.
        exists r, e. split; [reflexivity|]. split; [reflexivity|].
        destruct (Z.eqb_spec (X86.scale e) 1); [|discriminate].
        destruct (Z.eqb_spec (X86.displacement e) 0); [|discriminate].
        split; [assumption|]. split; [assumption|].
        destruct (Z.eqb_spec (X86.base e) X86.X86_REG_INVALID).
        -- left. apply Z.eqb_eq in H. auto.
        -- destruct (Z.eqb_spec (X86.index e) X86.X86_REG_INVALID);
             [|discriminate].
           right. apply Z.eqb_eq in H. auto.
      * intros [H|[H|[[H _]|[_ (r & e & -> & -> & -> & -> & Hregs)]]]];
          try discriminate.
        simpl. destruct Hregs as [[-> ->]|(Hb & Hi & Hbr)].
        -- rewrite Z.eqb_refl. apply Z.eqb_refl.
        -- destruct (Z.eqb_spec (X86.base e) X86.X86_REG_INVALID);
             [contradiction|].
           rewrite Hi, Z.eqb_refl, Hbr. apply Z.eqb_refl.
    + (* mov *)
      split.
      * intros H. right. right. left. split; [reflexivity|].
        destruct (X86.data (X86.operand_at inst 0)) as [| r0 | | | |];
          try discriminate.
        destruct (X86.data (X86.operand_at inst 1)) as [| r1 | | | |];
          try discriminate.
        apply Z.eqb_eq in H. subst. eauto.
      * intros [H|[H|[[_ (r & -> & ->)]|[H _]]]]; try discriminate.
        apply Z.eqb_refl.
    + split; [discriminate|].
      intros [H|[H|[[H _]|[H _]]]]; discriminate.
  - intros Hvalid Hzeros Hbytes. unfold X86.is_filling.
    rewrite Hvalid, Hzeros, Hbytes.
    destruct (negb _) eqn:Hret; [reflexivity|].
    apply negb_false_iff in Hret. exact Hret.
  - intros Hinvalid. unfold X86.is_filling. rewrite Hinvalid.
    rewrite andb_true_iff, Z.eqb_eq, bool_decide_eq_true. reflexivity.
Qed.

(** [mov eax, eax] is filling; the invalid single byte [00] is. *)
Lemma x86_is_filling_exactly_witness :
  X86.is_filling X86.sample_externals X86.mov_eax_eax = true
  /\ X86.is_filling X86.sample_externals X86.invalid_zero_byte = true.
Proof.
  split.
  - apply (proj1 (x86_is_filling_exactly X86.sample_externals X86.mov_eax_eax)
             eq_refl eq_refl).
    right. right. left. split; [reflexivity|]. exists 19. split; reflexivity.
  - apply (proj2 (proj2 (x86_is_filling_exactly X86.sample_externals
                           X86.invalid_zero_byte)) eq_refl).
    split; reflexivity.
Defined.

Lemma add_segment_bases_failed_address (ext : X86.Externals) (op : X86.Operand)
    (state : State) (ret : Z) :
  snd (X86.add_segment_bases ext op state ret) = false ->
  fst (X86.add_segment_bases ext op state ret) = 0.
Proof.
  unfold X86.add_segment_bases.
  repeat (destruct (_ && _) || destruct (negb _)); simpl;
    intros H; try discriminate; reflexivity.
Qed.

(** X16: the x86 effective address fails ([ok] false) only for a memory
    expression or an absolute operand, exactly when a GS or FS override
    needs a segment base the state does not have, and the address is
    then 0; for every other operand [ok] is set.  An absolute operand
    with the segment bases it needs gets them added to its offset. *)
Theorem x86_get_effective_address_failure (ext : X86.Externals) (op : X86.Operand)
    (state : State) :
  (snd (X86.get_effective_address ext op state) = false ->
   fst (X86.get_effective_address ext op state) = 0)
  /\ (snd (X86.get_effective_address ext op state) = false <->
      ((exists e, X86.data op = X86.TYPE_EXPRESSION e)
       \/ (exists offset, X86.data op = X86.TYPE_ABSOLUTE offset))
      /\ ((Z.land (X86.prefix (X86.owner op)) (X86.PREFIX_GS ext) <> 0
           /\ reg_valid (by_name state "gs_base") = false)
          \/ (Z.land (X86.prefix (X86.owner op)) (X86.PREFIX_FS ext) <> 0
              /\ reg_valid (by_name state "fs_base") = false)))
  /\ (forall offset,
        X86.data op = X86.TYPE_ABSOLUTE offset ->
        0 <= offset < 2 ^ 64 ->
        reg_valid (by_name state "gs_base") = true ->
        reg_valid (by_name state "fs_base") = true ->
        X86.get_effective_address ext op state =
        (wrap64
           (offset
            + (if Z.land (X86.prefix (X86.owner op)) (X86.PREFIX_GS ext) =? 0
               then 0 else valueAsAddress (by_name state "gs_base"))
            + (if Z.land (X86.prefix (X86.owner op)) (X86.PREFIX_FS ext) =? 0
               then 0 else valueAsAddress (by_name state "fs_base"))),
         true)).
Proof.
  split; [|split].
  - unfold X86.get_effective_address.
    destruct (X86.data op); simpl; try discriminate;
      apply add_segment_bases_failed_address.
  - unfold X86.get_effective_address.
    destruct (X86.data op) as [| r | e | offset | imm | target] eqn:Hd; simpl;
      try (split; [discriminate | intros [[[? ?]|[? ?]] _]; discriminate]).
    + rewrite add_segment_bases_fails_iff. split; [|tauto].
      intros H. split; [left; eauto | exact H].
    + rewrite add_segment_bases_fails_iff. split; [|tauto].
      intros H. split; [right; eauto | exact H].
  - intros offset Hd Hrange Hgs Hfs. unfold X86.get_effective_address.
    rewrite Hd. simpl. unfold X86.add_segment_bases. rewrite Hgs, Hfs.
    rewrite !andb_false_r.
    destruct (Z.land (X86.prefix (X86.owner op)) (X86.PREFIX_GS ext) =? 0);
    destruct (Z.land (X86.prefix (X86.owner op)) (X86.PREFIX_FS ext) =? 0);
      simpl; f_equal.
    + rewrite !Z.add_0_r. symmetry. apply wrap64_small, Hrange.
    + f_equal. lia.
    + f_equal. lia.
    + rewrite wrap64_add_l. reflexivity.
Qed.

(** An absolute operand at offset [0x28] with an FS override reads
    [fs_base + 0x28]; without [fs_base] in the state it fails with
    address 0. *)
Lemma x86_get_effective_address_failure_witness :
  X86.get_effective_address X86.sample_externals X86.fs_absolute_0x28
    (state_of ∅ [] None) = (0, false)
  /\ X86.get_effective_address X86.sample_externals X86.fs_absolute_0x28
       (state_of {[ "fs_base"%string := 0x7000; "gs_base"%string := 0 ]} [] None)
     = (wrap64 (0x28 + 0 + 0x7000), true).
Proof.
  split; [reflexivity|].
  exact (proj2 (proj2 (x86_get_effective_address_failure X86.sample_externals
                         X86.fs_absolute_0x28
                         (state_of {[ "fs_base"%string := 0x7000;
                                      "gs_base"%string := 0 ]} [] None)))
           0x28 eq_refl ltac:(lia) eq_refl eq_refl).
Defined.

(** ** The ARM conditions and the comment on the flags *)

Section ARMConditions.
Import ARM.

Lemma is_jcc_taken_condition_holds (cpsr cond : Z) :
  is_jcc_taken cpsr cond =
  condition_holds (negb (Z.land cpsr 0x80000000 =? 0))
    (negb (Z.land cpsr 0x40000000 =? 0))
    (negb (Z.land cpsr 0x20000000 =? 0))
    (negb (Z.land cpsr 0x10000000 =? 0)) cond.
Proof. reflexivity. Qed.

Lemma is_jcc_taken_cpsr_of (n z c v : bool) (cond : Z) :
  is_jcc_taken (cpsr_of n z c v) cond = condition_holds n z c v cond.
Proof. destruct n, z, c, v; reflexivity. Qed.

Lemma comment_of_ext (f g : Z -> bool) :
  (forall cond, f cond = g cond) -> comment_of f = comment_of g.
Proof.
  intros Hext. unfold comment_of. f_equal.
  generalize "("%string. induction (seqZ 0 (16 - 2)) as [|cond conds IH];
    intros comment; simpl.
  - reflexivity.
  - rewrite Hext. apply IH.
Qed.

(** Every CPSR tests like the one made of its four flags alone. *)
Lemma cpsrComment_flags (flags : Z) :
  cpsrComment flags =
  cpsrComment (cpsr_of (negb (Z.land flags 0x80000000 =? 0))
                 (negb (Z.land flags 0x40000000 =? 0))
                 (negb (Z.land flags 0x20000000 =? 0))
                 (negb (Z.land flags 0x10000000 =? 0))).
Proof.
  unfold cpsrComment. apply comment_of_ext. intros cond.
  rewrite is_jcc_taken_cpsr_of. apply is_jcc_taken_condition_holds.
Qed.

End ARMConditions.

(** X17: on ARM, higher is higher-or-same and not equal, lower-or-same is
    lower or equal, greater is greater-or-equal and not equal,
    less-or-equal is less or equal, less is N differing from V; and each
    of the fourteen conditions 0..13 holds for some flags and fails for
    others. *)
Theorem arm_is_jcc_taken_table :
  (forall cpsr,
      ARM.is_jcc_taken cpsr 0x8 = ARM.is_jcc_taken cpsr 0x2 && ARM.is_jcc_taken cpsr 0x1
      /\ ARM.is_jcc_taken cpsr 0x9 = ARM.is_jcc_taken cpsr 0x3 || ARM.is_jcc_taken cpsr 0x0
      /\ ARM.is_jcc_taken cpsr 0xc = ARM.is_jcc_taken cpsr 0xa && ARM.is_jcc_taken cpsr 0x1
      /\ ARM.is_jcc_taken cpsr 0xd = ARM.is_jcc_taken cpsr 0xb || ARM.is_jcc_taken cpsr 0x0
      /\ ARM.is_jcc_taken cpsr 0xb
         = xorb (ARM.is_jcc_taken cpsr 0x4) (ARM.is_jcc_taken cpsr 0x6))
  /\ (forall cond, 0 <= cond <= 13 ->
        exists holds_for fails_for,
          ARM.is_jcc_taken holds_for cond = true
          /\ ARM.is_jcc_taken fails_for cond = false).
Proof.
  split.
  - intros cpsr. rewrite !is_jcc_taken_condition_holds.
    generalize (negb (Z.land cpsr 0x80000000 =? 0)),
               (negb (Z.land cpsr 0x40000000 =? 0)),
               (negb (Z.land cpsr 0x20000000 =? 0)),
               (negb (Z.land cpsr 0x10000000 =? 0)).
    intros n z c v. destruct n, z, c, v; repeat split; reflexivity.
  - intros cond Hcond.
    assert (Hin : In cond [0; 1; 2; 3; 4; 5; 6; 7; 8; 9; 10; 11; 12; 13])
      by (simpl; lia).
    simpl in Hin.
    repeat (destruct Hin as [<-|Hin];
      [first
         [ exists 0xf0000000, 0; split; vm_compute; reflexivity
         | exists 0, 0xf0000000; split; vm_compute; reflexivity
         | exists 0x20000000, 0; split; vm_compute; reflexivity
         | exists 0, 0x20000000; split; vm_compute; reflexivity
         | exists 0, 0x80000000; split; vm_compute; reflexivity
         | exists 0x80000000, 0; split; vm_compute; reflexivity ]|]).
    contradiction.
Qed.

Lemma arm_is_jcc_taken_table_witness :
  exists holds_for fails_for,
    ARM.is_jcc_taken holds_for 8 = true /\ ARM.is_jcc_taken fails_for 8 = false.
Proof.
  exact (proj2 arm_is_jcc_taken_table 8 ltac:(lia)).
Defined.

(** X18: whatever the flags, exactly seven of the fourteen conditions
    hold (one of each pair), so the comment is never empty: it is the
    seven mnemonics, in the order of the table, separated by commas and
    enclosed in parentheses. *)
Theorem arm_cpsrComment_seven (flags : Z) :
  length (filter (fun cond => ARM.is_jcc_taken flags cond = true) (seqZ 0 14)) = 7%nat
  /\ ARM.cpsrComment flags
     = ("(" ++ String.concat ","
                 (map (fun cond => nth (Z.to_nat cond) ARM.jumpConditionMnemonics "")
                    (filter (fun cond => ARM.is_jcc_taken flags cond = true)
                       (seqZ 0 14)))
        ++ ")")%string.
Proof.
  assert (Hfilter :
    filter (fun cond => ARM.is_jcc_taken flags cond = true) (seqZ 0 14)
    = filter (fun cond =>
                ARM.is_jcc_taken
                  (ARM.cpsr_of (negb (Z.land flags 0x80000000 =? 0))
                     (negb (Z.land flags 0x40000000 =? 0))
                     (negb (Z.land flags 0x20000000 =? 0))
                     (negb (Z.land flags 0x10000000 =? 0))) cond = true)
        (seqZ 0 14)).
  { apply list_filter_iff. intros cond.
    rewrite is_jcc_taken_cpsr_of, <- is_jcc_taken_condition_holds. reflexivity. }
  rewrite Hfilter, cpsrComment_flags.
  generalize (negb (Z.land flags 0x80000000 =? 0)),
             (negb (Z.land flags 0x40000000 =? 0)),
             (negb (Z.land flags 0x20000000 =? 0)),
             (negb (Z.land flags 0x10000000 =? 0)).
  intros n z c v. destruct n, z, c, v; split; vm_compute; reflexivity.
Qed.



(** ** Classes of floating-point values *)

Lemma land_pow2 (x k : Z) :
  0 <= k -> Z.land x (2 ^ k) = if Z.testbit x k then 2 ^ k else 0.
Proof.
  intros Hk. apply Z.bits_inj'. intros i Hi.
  rewrite Z.land_spec, Z.pow2_bits_eqb by lia.
  destruct (Z.eqb_spec k i) as [->|Hne].
  - destruct (Z.testbit x i); simpl.
    + rewrite Z.pow2_bits_eqb, Z.eqb_refl by lia. reflexivity.
    + rewrite Z.bits_0. reflexivity.
  - rewrite andb_false_r. destruct (Z.testbit x k).
    + rewrite Z.pow2_bits_eqb by lia.
      symmetry. apply Z.eqb_neq. exact Hne.
    + rewrite Z.bits_0. reflexivity.
Qed.

(** A number below [2 ^ (k + 1)] is its low [k] bits plus bit [k]. *)
Lemma split_top_bit (x k : Z) :
  0 <= k -> 0 <= x < 2 ^ (k + 1) ->
  x = x mod 2 ^ k + (if Z.testbit x k then 2 ^ k else 0).
Proof.
  intros Hk Hx.
  assert (Hpos : 0 < 2 ^ k) by (apply Z.pow_pos_nonneg; lia).
  assert (Hpow : 2 ^ (k + 1) = 2 * 2 ^ k).
  { rewrite Z.pow_add_r by lia. change (2 ^ 1) with 2. lia. }
  pose proof (Z.div_mod x (2 ^ k) ltac:(lia)) as Hdm.
  pose proof (Z.mod_pos_bound x (2 ^ k) Hpos) as Hlo.
  pose proof (Z.testbit_spec' x k Hk) as Hbit.
  assert (Hq : 0 <= x / 2 ^ k < 2).
  { split; [apply Z.div_pos; lia | apply Z.div_lt_upper_bound; lia]. }
  rewrite (Z.mod_small (x / 2 ^ k) 2) in Hbit by lia.
  destruct (Z.testbit x k); simpl in Hbit; lia.
Qed.

Section FloatClasses.
Import FloatX.

(** A single-bit mask tests whether the number reaches that bit, for a
    number below the next bit. *)
Lemma land_top_bit (x k : Z) :
  0 <= k -> 0 <= x < 2 ^ (k + 1) ->
  (Z.land x (Z.shiftl 1 k) =? 0) = (x <? 2 ^ k).
Proof.
  intros Hk Hx.
  rewrite Z.shiftl_1_l, land_pow2 by lia.
  assert (Hpow : 2 ^ (k + 1) = 2 * 2 ^ k).
  { rewrite Z.pow_add_r by lia. change (2 ^ 1) with 2. lia. }
  assert (Hpos : 0 < 2 ^ k) by (apply Z.pow_pos_nonneg; lia).
  destruct (Z.testbit x k) eqn:Hbit.
  - apply Z.testbit_true in Hbit; [|lia].
    destruct (Z.ltb_spec x (2 ^ k)).
    + rewrite Z.div_small in Hbit by lia. discriminate.
    + apply Z.eqb_neq. lia.
  - destruct (Z.ltb_spec x (2 ^ k)); [reflexivity|].
    exfalso. apply Z.testbit_false in Hbit; [|lia].
    assert (x / 2 ^ k = 1).
    { symmetry. apply (Z.div_unique x (2 ^ k) 1 (x - 2 ^ k)); lia. }
    rewrite H0 in Hbit. discriminate.
Qed.

(** The class of an IEEE value is decided by its magnitude bits, in
    ascending order: zero, the denormals, the normals, infinity, the
    signalling and then the quiet NaNs. *)
Lemma ieeeClassify_magnitude (bits mantissaLength value : Z) :
  0 < mantissaLength -> mantissaLength + 1 < bits ->
  let one := 2 ^ mantissaLength in
  let top := (2 ^ (bits - mantissaLength - 1) - 1) * one in
  let magnitude := value mod 2 ^ (bits - 1) in
  ieeeClassify bits mantissaLength value =
  if magnitude =? 0 then Zero
  else if magnitude <? one then Denormal
  else if magnitude <? top then Normal
  else if magnitude =? top then Infinity
  else if magnitude <? top + 2 ^ (mantissaLength - 1) then SNaN
  else QNaN.
Proof.
  intros Hm Hb one top magnitude. unfold ieeeClassify. cbv zeta.
  assert (Hones : forall n, Z.shiftl 1 n - 1 = Z.ones n).
  { intros n. rewrite Z.ones_equiv, Z.shiftl_1_l. lia. }
  rewrite !Hones, !Z.land_ones, Z.shiftr_div_pow2 by lia.
  rewrite Z.ones_equiv, <- Z.sub_1_r.
  set (E := 2 ^ (bits - mantissaLength - 1)).
  assert (HE : 2 <= E).
  { unfold E. change 2 with (2 ^ 1) at 1. apply Z.pow_le_mono_r; lia. }
  assert (Hone : 0 < one) by (apply Z.pow_pos_nonneg; lia).
  assert (Hhalf : one = 2 * 2 ^ (mantissaLength - 1)).
  { unfold one. replace mantissaLength with (1 + (mantissaLength - 1)) at 1 by lia.
    rewrite Z.pow_add_r by lia. reflexivity. }
  assert (Hhalfpos : 0 < 2 ^ (mantissaLength - 1)) by (apply Z.pow_pos_nonneg; lia).
  assert (Hmag : magnitude = value mod one + one * ((value / one) mod E)).
  { unfold magnitude, one, E.
    replace (bits - 1) with (mantissaLength + (bits - mantissaLength - 1)) by lia.
    rewrite Z.pow_add_r by lia. apply Z.rem_mul_r; lia. }
  fold one.
  pose proof (Z.mod_pos_bound value one Hone) as Hman.
  pose proof (Z.mod_pos_bound (value / one) E ltac:(lia)) as Hexp.
  set (man := value mod one) in *. set (e := (value / one) mod E) in *.
  assert (Htop : top = (E - 1) * one) by reflexivity.
  rewrite (land_top_bit man (mantissaLength - 1)) by
    (try lia; replace (mantissaLength - 1 + 1) with mantissaLength by lia;
     fold one; lia).
  clearbody man e magnitude top E one.
  destruct (Z.eqb_spec e (E - 1)) as [He|He].
  - destruct (Z.eqb_spec man 0) as [H0|H0].
    + destruct (Z.eqb_spec magnitude 0); [nia|].
      destruct (Z.ltb_spec magnitude one); [nia|].
      destruct (Z.ltb_spec magnitude top); [nia|].
      destruct (Z.eqb_spec magnitude top); [reflexivity | nia].
    + destruct (Z.eqb_spec magnitude 0); [nia|].
      destruct (Z.ltb_spec magnitude one); [nia|].
      destruct (Z.ltb_spec magnitude top); [nia|].
      destruct (Z.eqb_spec magnitude top); [nia|].
      destruct (Z.ltb_spec man (2 ^ (mantissaLength - 1)));
        destruct (Z.ltb_spec magnitude (top + 2 ^ (mantissaLength - 1)));
        simpl; try reflexivity; nia.
  - destruct (Z.eqb_spec e 0) as [H0|H0].
    + destruct (Z.eqb_spec man 0).
      * destruct (Z.eqb_spec magnitude 0); [reflexivity | nia].
      * destruct (Z.eqb_spec magnitude 0); [nia|].
        destruct (Z.ltb_spec magnitude one); [reflexivity | nia].
    + destruct (Z.eqb_spec magnitude 0); [nia|].
      destruct (Z.ltb_spec magnitude one); [nia|].
      destruct (Z.ltb_spec magnitude top); [reflexivity | nia].
Qed.

End FloatClasses.

(** X21: the class [floatType] gives a 32-bit or 64-bit value depends on
    its magnitude bits only (not on the sign), and in ascending order of
    magnitude the classes are zero, denormal, normal, infinity,
    signalling NaN, quiet NaN; none is pseudo-denormal or unsupported. *)
Theorem floatType_by_magnitude (value : Z) :
  FloatX.floatType32 value =
  (let magnitude := value mod 2 ^ 31 in
   if magnitude =? 0 then FloatX.Zero
   else if magnitude <? 0x00800000 then FloatX.Denormal
   else if magnitude <? 0x7f800000 then FloatX.Normal
   else if magnitude =? 0x7f800000 then FloatX.Infinity
   else if magnitude <? 0x7fc00000 then FloatX.SNaN
   else FloatX.QNaN)
  /\ FloatX.floatType64 value =
     (let magnitude := value mod 2 ^ 63 in
      if magnitude =? 0 then FloatX.Zero
      else if magnitude <? 0x0010000000000000 then FloatX.Denormal
      else if magnitude <? 0x7ff0000000000000 then FloatX.Normal
      else if magnitude =? 0x7ff0000000000000 then FloatX.Infinity
      else if magnitude <? 0x7ff8000000000000 then FloatX.SNaN
      else FloatX.QNaN).
Proof.
  split.
  - exact (ieeeClassify_magnitude 32 23 value ltac:(lia) ltac:(lia)).
  - exact (ieeeClassify_magnitude 64 52 value ltac:(lia) ltac:(lia)).
Qed.

(** ** Reading the special names *)

(** X22: when the parser rejects the trimmed, lower-cased input and that
    input is one of the ten special names, [readFloat] succeeds, and
    [floatType] of what it returns is infinity for the [inf] names and a
    quiet NaN for the [qnan] names in all three formats, with the sign
    the name carries; for the [snan] names it is a signalling NaN in the
    80-bit format, but a quiet NaN in the 32-bit and 64-bit formats,
    whose [SNaN] constants have the top mantissa bit set. *)
Theorem readFloat_special_names (lower_trimmed : string -> string)
    (zero : list byte) (strInput name : string)
    (cls : FloatX.FloatValueClass) (neg : bool) :
  (name, (cls, neg)) ∈ FloatX.special_names ->
  lower_trimmed strInput = name ->
  (forall fullStringToFloat, fullStringToFloat name = None ->
     exists value,
       FloatX.readFloat FloatX.SpecialValues_long_double lower_trimmed
         fullStringToFloat zero strInput = (value, true)
       /\ FloatX.floatType80 (FloatX.le_value value) = cls
       /\ FloatX.negative 80 (FloatX.le_value value) = neg)
  /\ (forall fullStringToFloat, fullStringToFloat name = None ->
     exists value,
       FloatX.readFloat FloatX.SpecialValues_double lower_trimmed
         fullStringToFloat zero strInput = (value, true)
       /\ FloatX.floatType64 (FloatX.le_value value) =
          match cls with FloatX.SNaN => FloatX.QNaN | _ => cls end
       /\ FloatX.negative 64 (FloatX.le_value value) = neg)
  /\ (forall fullStringToFloat, fullStringToFloat name = None ->
     exists value,
       FloatX.readFloat FloatX.SpecialValues_float lower_trimmed
         fullStringToFloat zero strInput = (value, true)
       /\ FloatX.floatType32 (FloatX.le_value value) =
          match cls with FloatX.SNaN => FloatX.QNaN | _ => cls end
       /\ FloatX.negative 32 (FloatX.le_value value) = neg).
Proof.
  intros Hin Hname. unfold FloatX.special_names in Hin.
  repeat (apply elem_of_cons in Hin as [Hin|Hin];
    [ injection Hin as -> -> ->;
      split; [|split]; intros f Hf; unfold FloatX.readFloat;
      rewrite Hname, Hf; (eexists; split; [reflexivity|]);
      split; vm_compute; reflexivity
    | ]).
  apply elem_of_nil in Hin. destruct Hin.
Qed.

Lemma readFloat_special_names_witness :
  (forall f : string -> option (list byte), f "-snan"%string = None ->
     exists value,
       FloatX.readFloat FloatX.SpecialValues_long_double (fun s => s) f [] "-snan"
         = (value, true)
       /\ FloatX.floatType80 (FloatX.le_value value) = FloatX.SNaN
       /\ FloatX.negative 80 (FloatX.le_value value) = true)
  /\ (forall f : string -> option (list byte), f "-snan"%string = None ->
     exists value,
       FloatX.readFloat FloatX.SpecialValues_double (fun s => s) f [] "-snan"
         = (value, true)
       /\ FloatX.floatType64 (FloatX.le_value value) = FloatX.QNaN
       /\ FloatX.negative 64 (FloatX.le_value value) = true)
  /\ (forall f : string -> option (list byte), f "-snan"%string = None ->
     exists value,
       FloatX.readFloat FloatX.SpecialValues_float (fun s => s) f [] "-snan"
         = (value, true)
       /\ FloatX.floatType32 (FloatX.le_value value) = FloatX.QNaN
       /\ FloatX.negative 32 (FloatX.le_value value) = true).
Proof.
  apply (readFloat_special_names (fun s => s) [] "-snan" "-snan" FloatX.SNaN true).
  - unfold FloatX.special_names. rewrite !elem_of_cons.
    right. right. left. reflexivity.
  - reflexivity.
Defined.

(** X23: [readFloat] sets [ok] exactly when the parser accepts the
    trimmed, lower-cased input or that input is one of the ten special
    names; otherwise it returns zero. *)
Theorem readFloat_ok_iff (sv : FloatX.SpecialValues)
    (lower_trimmed : string -> string)
    (fullStringToFloat : string -> option (list byte)) (zero : list byte)
    (strInput : string) :
  let result :=
    FloatX.readFloat sv lower_trimmed fullStringToFloat zero strInput in
  (result.2 = true <->
   is_Some (fullStringToFloat (lower_trimmed strInput))
   \/ lower_trimmed strInput ∈ FloatX.special_names.*1)
  /\ (result.2 = false -> result.1 = zero).
Proof.
  cbv zeta. unfold FloatX.readFloat.
  destruct (fullStringToFloat (lower_trimmed strInput)) as [v|] eqn:Hf.
  { simpl. split; [|discriminate]. split; [intros _; left; eauto | reflexivity]. }
  set (str := lower_trimmed strInput).
  assert (Hnone : ~ is_Some (@None (list byte))) by (intros [? ?]; discriminate).
  unfold FloatX.special_names. rewrite !fmap_cons, fmap_nil. cbn [fst].
  repeat match goal with
  | |- context [String.eqb str ?s] =>
      destruct (String.eqb_spec str s) as [->|?];
      [ simpl; split; [|discriminate];
        split; [intros _; right; rewrite !elem_of_cons; intuition congruence
               | reflexivity] | ]
  end.
  simpl. split; [|reflexivity].
  split; [discriminate|]. intros [H|H]; [contradiction|].
  rewrite !elem_of_cons, elem_of_nil in H. intuition congruence.
Qed.

(** ** The 80-bit format *)

(** X24: the 80-bit format stores the integer bit (bit 63) explicitly.
    When that bit is what the exponent implies (clear for exponent 0,
    set otherwise), [floatType] gives the IEEE class of the value with
    the integer bit dropped; when it is set with exponent 0 the value is
    a pseudo-denormal, and when it is clear with a nonzero exponent the
    value is unsupported. *)
Theorem floatType80_integer_bit (value : Z) :
  FloatX.floatType80 value =
  if Bool.eqb (Z.testbit value 63) (negb (FloatX.exponent80 value =? 0))
  then FloatX.ieeeClassify 79 63 (value mod 2 ^ 63 + 2 ^ 63 * (value / 2 ^ 64))
  else if FloatX.exponent80 value =? 0 then FloatX.PseudoDenormal
  else FloatX.Unsupported.
Proof.
  unfold FloatX.floatType80, FloatX.ieeeClassify, FloatX.exponent80,
    FloatX.mantissa80. cbv zeta.
  change (8 * 10 - 64 - 1) with 15. change (79 - 63 - 1) with 15.
  change (64 - 1) with 63. change (64 - 2) with 62. change (63 - 1) with 62.
  change (Z.shiftl 1 15 - 1) with (Z.ones 15).
  change (2 ^ 15 - 1) with (Z.ones 15).
  change (2 ^ 64 - 1) with (Z.ones 64).
  change (Z.shiftl 1 63 - 1) with (Z.ones 63).
  change (Z.shiftl 1 63) with (2 ^ 63).
  change (Z.shiftl 1 62) with (2 ^ 62).
  change (Z.shiftl 3 62) with (Z.lor (2 ^ 62) (2 ^ 63)).
  rewrite !Z.land_ones, !Z.shiftr_div_pow2 by lia.
  set (lo := value mod 2 ^ 63).
  assert (Hlo : 0 <= lo < 2 ^ 63) by (apply Z.mod_pos_bound; lia).
  assert (Hdiv : (lo + 2 ^ 63 * (value / 2 ^ 64)) / 2 ^ 63 = value / 2 ^ 64).
  { rewrite Z.mul_comm, Z.div_add by lia. rewrite Z.div_small by lia. lia. }
  assert (Hmod : (lo + 2 ^ 63 * (value / 2 ^ 64)) mod 2 ^ 63 = lo).
  { rewrite Z.mul_comm, Z.mod_add by lia. apply Z.mod_small. lia. }
  rewrite Hdiv, Hmod.
  set (e := (value / 2 ^ 64) mod 2 ^ 15).
  set (m := value mod 2 ^ 64).
  assert (Hm : 0 <= m < 2 ^ 64) by (apply Z.mod_pos_bound; lia).
  assert (Hb63 : Z.testbit m 63 = Z.testbit value 63).
  { unfold m. apply Z.mod_pow2_bits_low. lia. }
  assert (Hb62 : Z.testbit m 62 = Z.testbit value 62).
  { unfold m. apply Z.mod_pow2_bits_low. lia. }
  assert (Hb62' : Z.testbit lo 62 = Z.testbit value 62).
  { unfold lo. apply Z.mod_pow2_bits_low. lia. }
  assert (Hmlo : m mod 2 ^ 63 = lo).
  { unfold m, lo. change (2 ^ 64) with (2 ^ 63 * 2).
    rewrite Z.rem_mul_r by lia.
    rewrite Z.mul_comm, Z.mod_add by lia. apply Z.mod_mod. lia. }
  pose proof (split_top_bit m 63 ltac:(lia) Hm) as Hsm.
  pose proof (split_top_bit lo 62 ltac:(lia) Hlo) as Hsl.
  rewrite Hmlo, Hb63 in Hsm. rewrite Hb62' in Hsl.
  pose proof (Z.mod_pos_bound lo (2 ^ 62) ltac:(lia)) as Hll.
  rewrite Z.land_lor_distr_r, !land_pow2, Hb63, Hb62, Hb62' by lia.
  clearbody m lo e. clear Hdiv Hmod Hb63 Hb62 Hb62' Hmlo.
  destruct (Z.testbit value 63), (Z.testbit value 62);
    change (Z.lor (2 ^ 62) (2 ^ 63)) with 13835058055282163712 in *;
    change (Z.lor 0 (2 ^ 63)) with 9223372036854775808 in *;
    change (Z.lor (2 ^ 62) 0) with 4611686018427387904 in *;
    change (Z.lor 0 0) with 0 in *;
    change (2 ^ 63) with 9223372036854775808 in *;
    change (2 ^ 62) with 4611686018427387904 in *;
    change (Z.ones 15) with 32767 in *;
    destruct (Z.eqb_spec e 32767) as [He|He];
    destruct (Z.eqb_spec e 0) as [He0|He0]; try lia; simpl;
    repeat match goal with
    | |- context [Z.eqb ?a ?b] => destruct (Z.eqb_spec a b); simpl; try lia
    end; reflexivity.
Qed.

(** ** Grouping of the hexadecimal digits *)

(** X25: the hexadecimal digits of a NaN or unsupported value are shown
    in groups of eight counted from the right, with at most two
    separators: up to 8 digits are left as they are, 9 to 16 digits get
    one separator before the last eight, and more than 16 digits get a
    second separator before the last sixteen. *)
Theorem group_hex_by_eight (hexStr : list ascii) :
  let n := length hexStr in
  FloatX.group_hex hexStr =
  if (n <=? 8)%nat then hexStr
  else if (n <=? 16)%nat
  then take (n - 8) hexStr ++ " "%char :: drop (n - 8) hexStr
  else take (n - 16) hexStr ++ " "%char ::
       take 8 (drop (n - 16) hexStr) ++ " "%char :: drop (n - 8) hexStr.
Proof.
  cbv zeta. unfold FloatX.group_hex, FloatX.insert_at.
  destruct (Nat.leb_spec (length hexStr) 8) as [H8|H8].
  - destruct (Nat.ltb_spec 8 (length hexStr)); [lia|].
    destruct (Nat.ltb_spec (16 + 1) (length hexStr)); [lia|reflexivity].
  - destruct (Nat.ltb_spec 8 (length hexStr)); [|lia].
    set (n := length hexStr) in *.
    assert (Hlen : length (take (n - 8) hexStr ++ " "%char :: drop (n - 8) hexStr)
                   = S n).
    { rewrite length_app, length_take. simpl. rewrite length_drop. fold n. lia. }
    rewrite Hlen.
    destruct (Nat.leb_spec n 16) as [H16|H16].
    + destruct (Nat.ltb_spec (16 + 1) (S n)); [lia|reflexivity].
    + destruct (Nat.ltb_spec (16 + 1) (S n)); [|lia].
      replace (S n - 16 - 1)%nat with (n - 16)%nat by lia.
      assert (Hlt : length (take (n - 8) hexStr) = (n - 8)%nat).
      { rewrite length_take. fold n. lia. }
      rewrite take_app_le, drop_app_le by lia.
      rewrite take_take. replace ((n - 16) `min` (n - 8))%nat with (n - 16)%nat by lia.
      do 3 f_equal. rewrite take_drop_commute. do 2 f_equal. lia.
Qed.

(** ** The ARM shifts *)

Lemma lor_disjoint (a c k : Z) :
  0 <= k -> 0 <= a < 2 ^ k -> Z.lor a (c * 2 ^ k) = a + c * 2 ^ k.
Proof.
  intros Hk Ha.
  assert (Hland : Z.land a (c * 2 ^ k) = 0).
  { apply Z.bits_inj'. intros i Hi. rewrite Z.land_spec, Z.bits_0.
    destruct (Z.ltb_spec i k).
    - rewrite Z.mul_pow2_bits_low by lia. apply andb_false_r.
    - rewrite <- (Z.mod_small a (2 ^ k)) by lia.
      rewrite Z.mod_pow2_bits_high by lia. reflexivity. }
  rewrite <- Z.lxor_lor, <- Z.add_nocarry_lxor by exact Hland. reflexivity.
Qed.

Lemma testbit_31 (x : Z) :
  0 <= x < 2 ^ 32 -> Z.testbit x 31 = negb (x <? 2 ^ 31).
Proof.
  intros Hx. pose proof (split_top_bit x 31 ltac:(lia) Hx) as Hs.
  pose proof (Z.mod_pos_bound x (2 ^ 31) ltac:(lia)) as Hlo.
  destruct (Z.testbit x 31), (Z.ltb_spec x (2 ^ 31)); simpl; try reflexivity; lia.
Qed.

(** The arithmetic shift right of [shift], as division of the signed
    value. *)
Lemma shift_ASR_signed (x N : Z) :
  0 <= x < 2 ^ 32 -> 1 <= N <= 32 ->
  (if N =? 32
   then wrap32 (- Z.shiftr (Z.land x ARM.highBit) 31)
   else Z.lor (Z.shiftr x N)
          (ARM.not32 (Z.shiftr (Z.land x ARM.highBit) N - 1)))
  = ((if x <? 2 ^ 31 then x else x - 2 ^ 32) / 2 ^ N) mod 2 ^ 32.
Proof.
  intros Hx HN. unfold ARM.highBit. change (Z.shiftl 1 31) with (2 ^ 31).
  rewrite land_pow2 by lia. rewrite (testbit_31 x Hx).
  destruct (Z.ltb_spec x (2 ^ 31)) as [Hlt|Hge]; simpl negb; cbv iota.
  - (* sign bit clear *)
    rewrite !Z.shiftr_0_l.
    assert (Hq : 0 <= x / 2 ^ N < 2 ^ 32).
    { assert (0 < 2 ^ N) by (apply Z.pow_pos_nonneg; lia).
      split; [apply Z.div_pos; lia|].
      apply Z.div_lt_upper_bound; [lia|]. nia. }
    destruct (Z.eqb_spec N 32) as [->|Hne].
    + rewrite Z.div_small by lia. reflexivity.
    + change (ARM.not32 (0 - 1)) with 0. rewrite Z.lor_0_r, Z.shiftr_div_pow2 by lia.
      symmetry. apply Z.mod_small. exact Hq.
  - (* sign bit set *)
    destruct (Z.eqb_spec N 32) as [->|Hne].
    + change (wrap32 (- Z.shiftr (2 ^ 31) 31)) with ((-1) mod 2 ^ 32).
      f_equal.
      apply (Z.div_unique (x - 2 ^ 32) (2 ^ 32) (-1) x); lia.
    + assert (Hk : 2 ^ 31 = 2 ^ (31 - N) * 2 ^ N).
      { rewrite <- Z.pow_add_r by lia. f_equal. lia. }
      assert (HposN : 0 < 2 ^ N) by (apply Z.pow_pos_nonneg; lia).
      assert (Hposk : 0 < 2 ^ (31 - N)) by (apply Z.pow_pos_nonneg; lia).
      assert (Hsh : Z.shiftr (2 ^ 31) N - 1 = Z.ones (31 - N)).
      { rewrite Z.shiftr_div_pow2 by lia. rewrite Hk at 1.
        rewrite Z.div_mul by lia. rewrite Z.ones_equiv. lia. }
      rewrite Hsh. unfold ARM.not32, wrap32.
      change (2 ^ 32 - 1) with (Z.ones 32).
      assert (Hsmall : Z.ones (31 - N) mod 2 ^ 32 = Z.ones (31 - N)).
      { apply Z.mod_small. rewrite Z.ones_equiv.
        assert (2 ^ (31 - N) <= 2 ^ 31) by (apply Z.pow_le_mono_r; lia). lia. }
      rewrite Hsmall.
      apply Z.bits_inj'. intros i Hi.
      rewrite Z.lor_spec, Z.lxor_spec, Z.shiftr_spec, !Z.testbit_ones_nonneg by lia.
      destruct (Z.ltb_spec i 32) as [Hi32|Hi32].
      * rewrite Z.mod_pow2_bits_low, Z.div_pow2_bits by lia.
        destruct (Z.ltb_spec (i + N) 32) as [HiN|HiN].
        -- (* the bit comes from [x] *)
           replace (Z.testbit (x - 2 ^ 32) (i + N)) with (Z.testbit x (i + N)).
           2:{ rewrite <- (Z.mod_pow2_bits_low (x - 2 ^ 32) 32 (i + N)) by lia.
               f_equal.
               apply (Z.mod_unique (x - 2 ^ 32) (2 ^ 32) (-1) x); lia. }
           destruct (Z.ltb_spec i (31 - N)).
           ++ simpl. apply orb_false_r.
           ++ replace (i + N) with 31 by lia.
              rewrite (testbit_31 x Hx).
              destruct (Z.ltb_spec x (2 ^ 31)); [lia|reflexivity].
        -- (* the bit is a copy of the sign *)
           destruct (Z.ltb_spec i (31 - N)); [lia|]. simpl.
           rewrite orb_true_r. symmetry.
           apply Z.bits_above_log2_neg; [lia|].
           destruct (Z.eq_dec (Z.pred (- (x - 2 ^ 32))) 0) as [->|Hnz].
           ++ simpl. lia.
           ++ apply Z.log2_lt_pow2; [lia|].
              assert (2 ^ 32 <= 2 ^ (i + N)) by (apply Z.pow_le_mono_r; lia).
              lia.
      * rewrite Z.mod_pow2_bits_high by lia.
        destruct (Z.ltb_spec i (31 - N)); [lia|]. simpl. rewrite orb_false_r.
        rewrite <- (Z.mod_small x (2 ^ 32)) by lia.
        apply Z.mod_pow2_bits_high. lia.
Qed.

(** X26: on a 32-bit value, [shift] computes the ARM shifts: a logical
    shift left is multiplication by [2 ^ N] modulo [2 ^ 32], a logical
    shift right is division, an arithmetic shift right is division of
    the signed value (so a shift by 32 gives all zeros or all ones), a
    rotation moves the low [N] bits to the top, and RRX shifts the carry
    flag in from the left.  The [_REG] variants behave alike; outside
    the amounts shown the assertions of LSL, ASR and ROR fail. *)
Theorem arm_shift_arithmetic (x N : Z) (carryFlag : bool) :
  0 <= x < 2 ^ 32 ->
  0 <= N < 2 ^ 32 ->
  let signed := if x <? 2 ^ 31 then x else x - 2 ^ 32 in
  (forall type, type = ARM.ARM_SFT_LSL \/ type = ARM.ARM_SFT_LSL_REG ->
     ARM.shift x type N carryFlag =
     if N <=? 31 then Some ((x * 2 ^ N) mod 2 ^ 32) else None)
  /\ (forall type, type = ARM.ARM_SFT_LSR \/ type = ARM.ARM_SFT_LSR_REG ->
     N <= 32 -> ARM.shift x type N carryFlag = Some (x / 2 ^ N))
  /\ (forall type, type = ARM.ARM_SFT_ASR \/ type = ARM.ARM_SFT_ASR_REG ->
     ARM.shift x type N carryFlag =
     if (1 <=? N) && (N <=? 32) then Some ((signed / 2 ^ N) mod 2 ^ 32)
     else None)
  /\ (forall type, type = ARM.ARM_SFT_ROR \/ type = ARM.ARM_SFT_ROR_REG ->
     ARM.shift x type N carryFlag =
     if (1 <=? N) && (N <=? 31)
     then Some (x / 2 ^ N + (x mod 2 ^ N) * 2 ^ (32 - N)) else None)
  /\ (forall type, type = ARM.ARM_SFT_RRX \/ type = ARM.ARM_SFT_RRX_REG ->
     ARM.shift x type N carryFlag =
     Some (x / 2 + if carryFlag then 2 ^ 31 else 0)).
Proof.
  intros Hx HN signed.
  assert (HposN : 0 < 2 ^ N) by (apply Z.pow_pos_nonneg; lia).
  split; [|split; [|split; [|split]]].
  - intros type [-> | ->]; unfold ARM.shift;
      (destruct (Z.leb_spec 0 N); [|lia]);
      (destruct (Z.leb_spec N 31); simpl; [|reflexivity]);
      unfold wrap32; rewrite Z.shiftl_mul_pow2 by lia; reflexivity.
  - intros type [-> | ->] H32; unfold ARM.shift;
      (destruct (Z.eqb_spec N 32) as [->|Hne];
       [ rewrite Z.div_small by lia; reflexivity
       | destruct (Z.ltb_spec N 32); [|lia];
         rewrite Z.shiftr_div_pow2 by lia; reflexivity ]).
  - intros type [-> | ->]; unfold ARM.shift;
      (destruct ((1 <=? N) && (N <=? 32)) eqn:Hrange; [|reflexivity]);
      apply andb_true_iff in Hrange as [H1 H2];
      apply Z.leb_le in H1; apply Z.leb_le in H2;
      f_equal; apply shift_ASR_signed; lia.
  - assert (Hror : 1 <= N <= 31 ->
      Z.lor (Z.shiftr x N) (wrap32 (Z.shiftl x (Z.land (wrap32 (- N)) 31)))
      = x / 2 ^ N + (x mod 2 ^ N) * 2 ^ (32 - N)).
    { intros Hr.
      assert (Hamount : Z.land (wrap32 (- N)) 31 = 32 - N).
      { unfold wrap32. change 31 with (Z.ones 5). rewrite Z.land_ones by lia.
        change (2 ^ 32) with (2 ^ 5 * 2 ^ 27). rewrite Z.rem_mul_r by lia.
        rewrite Z.mul_comm, Z.mod_add by lia. rewrite Z.mod_mod by lia.
        symmetry. apply (Z.mod_unique (- N) (2 ^ 5) (-1) (32 - N)); lia. }
      rewrite Hamount, Z.shiftr_div_pow2, Z.shiftl_mul_pow2 by lia.
      assert (Hpos' : 0 < 2 ^ (32 - N)) by (apply Z.pow_pos_nonneg; lia).
      assert (Hpow : 2 ^ 32 = 2 ^ N * 2 ^ (32 - N)).
      { rewrite <- Z.pow_add_r by lia. f_equal. lia. }
      pose proof (Z.div_mod x (2 ^ N) ltac:(lia)) as Hdm.
      pose proof (Z.mod_pos_bound x (2 ^ N) HposN) as Hlo.
      assert (Hhi : 0 <= x / 2 ^ N < 2 ^ (32 - N)).
      { split; [apply Z.div_pos; lia|]. apply Z.div_lt_upper_bound; lia. }
      assert (Hwrap : wrap32 (x * 2 ^ (32 - N)) = (x mod 2 ^ N) * 2 ^ (32 - N)).
      { unfold wrap32. symmetry.
        apply (Z.mod_unique _ _ (x / 2 ^ N)); [nia|].
        rewrite Hdm at 1. rewrite Hpow. ring. }
      rewrite Hwrap. apply lor_disjoint; lia. }
    intros type [-> | ->]; unfold ARM.shift;
      (destruct ((1 <=? N) && (N <=? 31)) eqn:Hrange; [|reflexivity]);
      apply andb_true_iff in Hrange as [H1 H2];
      apply Z.leb_le in H1; apply Z.leb_le in H2;
      f_equal; apply Hror; lia.
  - assert (Hrrx :
      Z.lor (Z.shiftl (if carryFlag then 1 else 0) 31) (Z.shiftr x 1)
      = x / 2 + if carryFlag then 2 ^ 31 else 0).
    { rewrite Z.shiftr_div_pow2 by lia. change (2 ^ 1) with 2.
      assert (Hq : 0 <= x / 2 < 2 ^ 31).
      { split; [apply Z.div_pos; lia | apply Z.div_lt_upper_bound; lia]. }
      rewrite Z.lor_comm. destruct carryFlag.
      - change (Z.shiftl 1 31) with (1 * 2 ^ 31). apply lor_disjoint; lia.
      - change (Z.shiftl 0 31) with 0. rewrite Z.lor_0_r. lia. }
    intros type [-> | ->]; unfold ARM.shift; f_equal; exact Hrrx.
Qed.

Lemma arm_shift_arithmetic_witness :
  ARM.shift 0x80000001 ARM.ARM_SFT_ASR 4 false = Some 0xf8000000
  /\ ARM.shift 0x80000001 ARM.ARM_SFT_ROR 4 false = Some 0x18000000.
Proof.
  pose proof (arm_shift_arithmetic 0x80000001 4 false
                ltac:(lia) ltac:(lia)) as (_ & _ & Hasr & Hror & _).
  split.
  - exact (Hasr ARM.ARM_SFT_ASR (or_introl eq_refl)).
  - exact (Hror ARM.ARM_SFT_ROR (or_introl eq_refl)).
Defined.
